(** * Ai-hologram: speech / streaming orchestration core

    A shallow embedding of the voice-chat client's core:
    - [JS]      : the JavaScript string primitives the sources call
                  ([trim], [toLowerCase], [includes], [indexOf],
                  [lastIndexOf], [substring], [split], and the global
                  regular expression of [speak]);
    - [Speech]  : the hook of [src/hooks/useSpeech.ts];
    - [Ollama]  : [extractJson], [generateJson] and [generateChatStream]
                  of [src/services/ollama.ts];
    - [Chat]    : the mode synchronisation and the stream callbacks of
                  [src/components/ChatView.tsx].

    Strings are sequences of code units; the development works with code
    units below 256 (Latin-1), on which [toLowerCase] and the white space
    class of [trim] are written out in full. *)

From Stdlib Require Import List Ascii ZArith Lia Bool Arith.
From Stdlib Require String DecimalString.
Import ListNotations.
Import String.StringSyntax.
Local Open Scope string_scope.
Local Open Scope list_scope.

(* ===================================================================== *)
(** * JavaScript string primitives *)
(* ===================================================================== *)
Module JS.

Definition jsstring : Type := list ascii.

(** String literals of the sources. *)
Definition lit (s : String.string) : jsstring :=
  String.list_ascii_of_string s.

Definition chr_eqb (a b : ascii) : bool := Ascii.eqb a b.

Definition str_eqb (a b : jsstring) : bool :=
  if list_eq_dec ascii_dec a b then true else false.

(** [!s] is false exactly for the empty string. *)
Definition truthy_str (s : jsstring) : bool :=
  match s with [] => false | _ :: _ => true end.

Fixpoint takeWhile {A : Type} (p : A -> bool) (l : list A) : list A :=
  match l with
  | [] => []
  | x :: l' => if p x then x :: takeWhile p l' else []
  end.

Fixpoint dropWhile {A : Type} (p : A -> bool) (l : list A) : list A :=
  match l with
  | [] => []
  | x :: l' => if p x then dropWhile p l' else l
  end.

Definition dropEndWhile {A : Type} (p : A -> bool) (l : list A) : list A :=
  rev (dropWhile p (rev l)).

(** ** [String.prototype.trim] *)

(** WhiteSpace and LineTerminator code units below 256:
    TAB, LF, VT, FF, CR, SP and NBSP. *)
Definition isWhiteSpace (c : ascii) : bool :=
  existsb (N.eqb (N_of_ascii c)) [9; 10; 11; 12; 13; 32; 160]%N.

Definition trim (s : jsstring) : jsstring :=
  dropEndWhile isWhiteSpace (dropWhile isWhiteSpace s).

(** ** [String.prototype.toLowerCase] *)

(** A-Z, and the Latin-1 capitals U+00C0..U+00DE except the
    multiplication sign U+00D7, move up by 32; everything else is fixed. *)
Definition lowerChar (c : ascii) : ascii :=
  let n := N_of_ascii c in
  if ((65 <=? n) && (n <=? 90)
      || ((192 <=? n) && (n <=? 222) && negb (n =? 215)))%N
  then ascii_of_N (n + 32)
  else c.

Definition toLowerCase (s : jsstring) : jsstring := map lowerChar s.

(** ** [String.prototype.includes] *)

Fixpoint startsWith (s t : jsstring) : bool :=
  match t with
  | [] => true
  | b :: t' =>
      match s with
      | [] => false
      | a :: s' => chr_eqb a b && startsWith s' t'
      end
  end.

Fixpoint includes (s t : jsstring) : bool :=
  startsWith s t
  || match s with
     | [] => false
     | _ :: s' => includes s' t
     end.

(** ** [indexOf], [lastIndexOf], [substring] with a one-unit needle *)

Fixpoint indexOfFrom (c : ascii) (s : jsstring) (i : Z) : Z :=
  match s with
  | [] => (-1)%Z
  | x :: s' => if chr_eqb x c then i else indexOfFrom c s' (i + 1)%Z
  end.

Definition indexOf (s : jsstring) (c : ascii) : Z := indexOfFrom c s 0%Z.

Fixpoint lastIndexOfFrom (c : ascii) (s : jsstring) (i found : Z) : Z :=
  match s with
  | [] => found
  | x :: s' =>
      lastIndexOfFrom c s' (i + 1)%Z (if chr_eqb x c then i else found)
  end.

Definition lastIndexOf (s : jsstring) (c : ascii) : Z :=
  lastIndexOfFrom c s 0%Z (-1)%Z.

(** [s.substring(a, b)]: both ends are clamped to [0, length] and
    swapped when out of order. *)
Definition substring (s : jsstring) (a b : Z) : jsstring :=
  let len := Z.of_nat (length s) in
  let a' := Z.min (Z.max a 0) len in
  let b' := Z.min (Z.max b 0) len in
  let lo := Z.min a' b' in
  let hi := Z.max a' b' in
  firstn (Z.to_nat (hi - lo)) (skipn (Z.to_nat lo) s).

(** ** [String.prototype.split] on a one-unit separator *)

(** The result always has at least one element: [''.split(sep)] is
    [['']]. *)
Fixpoint split (sep : ascii) (s : jsstring) : list jsstring :=
  match s with
  | [] => [[]]
  | c :: s' =>
      if chr_eqb c sep then [] :: split sep s'
      else match split sep s' with
           | [] => [[c]]
           | h :: t => (c :: h) :: t
           end
  end.

(** [Array.prototype.pop]: the array without its last element, and
    that element ([undefined], here [None], on an empty array). *)
Definition pop {A : Type} (l : list A) : list A * option A :=
  match rev l with
  | [] => ([], None)
  | x :: r => (rev r, Some x)
  end.

(** ** The global regular expression [/[^.!?]+[.!?\n]*/g] *)

Definition LF : ascii := "010"%char.

(** The class [.!?]. *)
Definition isTerminator (c : ascii) : bool :=
  chr_eqb c "."%char || chr_eqb c "!"%char || chr_eqb c "?"%char.

(** The negated class [^.!?]: every other code unit, line feed
    included. *)
Definition isBody (c : ascii) : bool := negb (isTerminator c).

(** The class [.!?\n]. *)
Definition isDelimiter (c : ascii) : bool :=
  isTerminator c || chr_eqb c LF.

(** One attempt at the head of [s].  Both quantifiers are greedy and the
    second may match nothing, so the first greedy choice succeeds whenever
    any choice does: the attempt fails only when no body unit is there.
    The result is the match and the text after it. *)
Definition matchAt (s : jsstring) : option (jsstring * jsstring) :=
  match takeWhile isBody s with
  | [] => None
  | body =>
      let r := dropWhile isBody s in
      Some (body ++ takeWhile isDelimiter r, dropWhile isDelimiter r)
  end.

(** All matches from left to right: after a match the search resumes
    behind it, after a failed attempt one unit further on. *)
Fixpoint matchAllFuel (fuel : nat) (s : jsstring) : list jsstring :=
  match fuel with
  | O => []
  | S fuel' =>
      match s with
      | [] => []
      | _ :: s' =>
          match matchAt s with
          | Some (m, rest) => m :: matchAllFuel fuel' rest
          | None => matchAllFuel fuel' s'
          end
      end
  end.

(** [text.match(re)] with the [g] flag: [null] when nothing matches. *)
Definition matchSentences (text : jsstring) : option (list jsstring) :=
  match matchAllFuel (length text) text with
  | [] => None
  | ms => Some ms
  end.

End JS.

(* ===================================================================== *)
(** * The speech hook, [src/hooks/useSpeech.ts] *)
(* ===================================================================== *)
Module Speech.
Import JS.

Inductive SpeechState : Type := idle | standby | listening | speaking.

Definition SpeechState_eqb (a b : SpeechState) : bool :=
  match a, b with
  | idle, idle | standby, standby
  | listening, listening | speaking, speaking => true
  | _, _ => false
  end.

(** What a callback built by [useCallback] has captured of the React
    state at the render that built it.  A call through the callbacks of
    the current render sees the current values ([render] below); a
    handler installed earlier keeps the values of its own render. *)
Record Render : Type := mkRender {
  seenState : SpeechState;
  seenPermission : option jsstring
}.

(** The three handlers of the recognizer are always installed and removed
    together. *)
Inductive Handlers : Type :=
| Detached
| StandbyHandlers (triggerWord : jsstring) (seen : SpeechState)
| ListeningHandlers (seen : SpeechState).

Record Recognition : Type := mkRecognition {
  continuous : bool;
  interimResults : bool;
  handlers : Handlers
}.

(** [useState] cells and [useRef] cells of the hook. *)
Record Hook : Type := mkHook {
  speechState : SpeechState;
  permissionError : option jsstring;
  recognitionRef : option Recognition;
  sentenceQueueRef : list jsstring;
  wakeWordDetectedRef : bool
}.

Definition render (h : Hook) : Render :=
  mkRender (speechState h) (permissionError h).

Definition setSpeechState (s : SpeechState) (h : Hook) : Hook :=
  mkHook s (permissionError h) (recognitionRef h)
         (sentenceQueueRef h) (wakeWordDetectedRef h).

Definition setPermissionError (e : option jsstring) (h : Hook) : Hook :=
  mkHook (speechState h) e (recognitionRef h)
         (sentenceQueueRef h) (wakeWordDetectedRef h).

Definition setRecognition (r : option Recognition) (h : Hook) : Hook :=
  mkHook (speechState h) (permissionError h) r
         (sentenceQueueRef h) (wakeWordDetectedRef h).

Definition setSentenceQueue (q : list jsstring) (h : Hook) : Hook :=
  mkHook (speechState h) (permissionError h) (recognitionRef h)
         q (wakeWordDetectedRef h).

Definition setWakeWordDetected (b : bool) (h : Hook) : Hook :=
  mkHook (speechState h) (permissionError h) (recognitionRef h)
         (sentenceQueueRef h) b.

(** Calls that leave the hook. *)
Inductive Effect : Type :=
| Utter (text : jsstring) (seen : SpeechState)
    (* window.speechSynthesis.speak(utterance); the utterance's handlers
       call the [processSentenceQueue] that saw [seen] *)
| RecognitionStart
| RecognitionStop
| Activation                      (* onActivation() *)
| Transcript (t : jsstring)       (* onTranscript(t) *)
| ConsoleError.

(** [if (x)] on a [string | null]. *)
Definition truthy_opt (x : option jsstring) : bool :=
  match x with
  | None => false
  | Some s => truthy_str s
  end.

(** ** Text to speech *)

Definition processSentenceQueue (seen : SpeechState) (h : Hook)
  : Hook * list Effect :=
  if SpeechState_eqb seen speaking
     || (length (sentenceQueueRef h) =? 0)
  then (h, [])
  else
    let h1 := setSpeechState speaking h in
    match sentenceQueueRef h1 with            (* shift() *)
    | [] => (setSpeechState idle h1, [])
    | textToSpeak :: q =>
        let h2 := setSentenceQueue q h1 in
        if truthy_str textToSpeak
        then (h2, [Utter textToSpeak seen])
        else (setSpeechState idle h2, [])
    end.

(** [text.match(/[^.!?]+[.!?\n]*/g) || [text]] *)
Definition sentencesOf (text : jsstring) : list jsstring :=
  match matchSentences text with
  | Some ms => ms
  | None => [text]
  end.

(** [s => s.trim().length > 0] *)
Definition nonBlank (s : jsstring) : bool := 0 <? length (trim s).

(** The queue right after the [push] of [speak]. *)
Definition enqueue (text : jsstring) (h : Hook) : Hook :=
  setSentenceQueue
    (sentenceQueueRef h ++ filter nonBlank (sentencesOf text)) h.

Definition speak (seen : SpeechState) (text : jsstring) (h : Hook)
  : Hook * list Effect :=
  processSentenceQueue seen (enqueue text h).

(** [utterance.onend] *)
Definition utterance_onend (seen : SpeechState) (h : Hook)
  : Hook * list Effect :=
  if 0 <? length (sentenceQueueRef h)
  then processSentenceQueue seen h
  else (setSpeechState idle h, []).

(** [utterance.onerror] *)
Definition utterance_onerror (seen : SpeechState) (h : Hook)
  : Hook * list Effect :=
  let (h', es) := processSentenceQueue seen (setSpeechState idle h) in
  (h', ConsoleError :: es).

(** ** Speech recognition *)

Definition stopCurrentRecognition (h : Hook) : Hook * list Effect :=
  match recognitionRef h with
  | Some r =>
      (setRecognition
         (Some (mkRecognition (continuous r) (interimResults r) Detached)) h,
       [RecognitionStop])
  | None => (h, [])
  end.

Definition permissionMessage : jsstring :=
  lit "Microphone permission denied. Please enable it in your browser settings.".

Definition startStandby (seen : Render) (triggerWord : jsstring) (h : Hook)
  : Hook * list Effect :=
  if truthy_opt (seenPermission seen) then (h, [])
  else
    let (h1, es) := stopCurrentRecognition h in
    match recognitionRef h1 with
    | None => (h1, es)
    | Some _ =>
        if negb (truthy_str triggerWord) then (h1, es)
        else
          let h2 := setWakeWordDetected false (setSpeechState standby h1) in
          (setRecognition
             (Some (mkRecognition true true
                      (StandbyHandlers triggerWord (seenState seen)))) h2,
           es ++ [RecognitionStart])
    end.

Definition startListening (seen : Render) (h : Hook) : Hook * list Effect :=
  if truthy_opt (seenPermission seen) then (h, [])
  else
    let (h1, es) := stopCurrentRecognition h in
    match recognitionRef h1 with
    | None => (h1, es)
    | Some _ =>
        (setRecognition
           (Some (mkRecognition false false
                    (ListeningHandlers (seenState seen))))
           (setSpeechState listening h1),
         es ++ [RecognitionStart])
    end.

(** The first alternative's transcript of each result of a recognition
    event; the platform delivers at least one result. *)
Record SpeechRecognitionEvent : Type := mkResults {
  firstResult : jsstring;
  laterResults : list jsstring
}.

Definition lastResult (ev : SpeechRecognitionEvent) : jsstring :=
  last (laterResults ev) (firstResult ev).

(** The test of the standby [onresult] on the most recent segment. *)
Definition wakeMatch (triggerWord segment : jsstring) : bool :=
  includes (trim (toLowerCase segment)) (toLowerCase triggerWord).

Definition standby_onresult (triggerWord : jsstring)
  (ev : SpeechRecognitionEvent) (h : Hook) : Hook * list Effect :=
  if wakeMatch triggerWord (lastResult ev) && negb (wakeWordDetectedRef h)
  then (setWakeWordDetected true h, [Activation])
  else (h, []).

Definition standby_onend (seen : SpeechState) (h : Hook)
  : Hook * list Effect :=
  if negb (wakeWordDetectedRef h) && SpeechState_eqb seen standby
  then (h, [RecognitionStart])
  else (h, []).

Definition standby_onerror (error : jsstring) (h : Hook)
  : Hook * list Effect :=
  if str_eqb error (lit "not-allowed") then
    let (h1, es) := stopCurrentRecognition h in
    (setSpeechState idle (setPermissionError (Some permissionMessage) h1),
     ConsoleError :: es)
  else if negb (str_eqb error (lit "no-speech")) then
    (setSpeechState idle h, [ConsoleError])
  else (h, [ConsoleError]).

Definition listening_onresult (ev : SpeechRecognitionEvent) (h : Hook)
  : Hook * list Effect :=
  let finalTranscript := trim (firstResult ev) in
  if truthy_str finalTranscript then (h, [Transcript finalTranscript])
  else (h, []).

Definition listening_onend (seen : SpeechState) (h : Hook)
  : Hook * list Effect :=
  if SpeechState_eqb seen listening then (setSpeechState idle h, [])
  else (h, []).

Definition listening_onerror (error : jsstring) (h : Hook)
  : Hook * list Effect :=
  let h1 := if str_eqb error (lit "not-allowed")
            then setPermissionError (Some permissionMessage) h
            else h in
  (setSpeechState idle h1, [ConsoleError]).

Definition installed (h : Hook) : Handlers :=
  match recognitionRef h with
  | Some r => handlers r
  | None => Detached
  end.

(** Modelled from the spec: [stop], whose body lies in the part of
    [useSpeech.ts] that is not among the sources.  The spec's words:
    it unconditionally tears down any active recognition session and does
    not clear the pending sentence queue. *)
Definition stop (h : Hook) : Hook * list Effect := stopCurrentRecognition h.

(** ** Everything that can happen to the hook *)

Inductive Action : Type :=
| CallSpeak (seen : SpeechState) (text : jsstring)
| CallStartStandby (seen : Render) (triggerWord : jsstring)
| CallStartListening (seen : Render)
| CallStop
| RecognitionResult (ev : SpeechRecognitionEvent)
| RecognitionEnd
| RecognitionError (error : jsstring)
| UtteranceEnd (seen : SpeechState)
| UtteranceError (seen : SpeechState).

Definition step (a : Action) (h : Hook) : Hook * list Effect :=
  match a with
  | CallSpeak seen text => speak seen text h
  | CallStartStandby seen triggerWord => startStandby seen triggerWord h
  | CallStartListening seen => startListening seen h
  | CallStop => stop h
  | RecognitionResult ev =>
      match installed h with
      | StandbyHandlers triggerWord _ => standby_onresult triggerWord ev h
      | ListeningHandlers _ => listening_onresult ev h
      | Detached => (h, [])
      end
  | RecognitionEnd =>
      match installed h with
      | StandbyHandlers _ seen => standby_onend seen h
      | ListeningHandlers seen => listening_onend seen h
      | Detached => (h, [])
      end
  | RecognitionError error =>
      match installed h with
      | StandbyHandlers _ _ => standby_onerror error h
      | ListeningHandlers _ => listening_onerror error h
      | Detached => (h, [])
      end
  | UtteranceEnd seen => utterance_onend seen h
  | UtteranceError seen => utterance_onerror seen h
  end.

Fixpoint run (acts : list Action) (h : Hook) : Hook * list Effect :=
  match acts with
  | [] => (h, [])
  | a :: acts' =>
      let (h1, es1) := step a h in
      let (h2, es2) := run acts' h1 in
      (h2, es1 ++ es2)
  end.

(** The hook as [useState] and [useRef] initialise it, once the
    recognizer object has been created where the browser offers one. *)
Definition initial (recognizer : bool) : Hook :=
  mkHook idle None
         (if recognizer then Some (mkRecognition false false Detached)
          else None)
         [] false.

End Speech.

(* ===================================================================== *)
(** * The inference gateway, [src/services/ollama.ts] *)
(* ===================================================================== *)
Module Ollama.
Import JS.

(** ** [extractJson] *)

Definition extractJson (response : jsstring) : option jsstring :=
  let text := trim response in
  let firstBrace := indexOf text "{"%char in
  let firstBracket := indexOf text "["%char in
  if ((firstBrace =? -1) && (firstBracket =? -1))%Z then None
  else if (negb (firstBrace =? -1)
           && ((firstBrace <? firstBracket) || (firstBracket =? -1)))%Z
  then
    let startIndex := firstBrace in
    let lastBrace := lastIndexOf text "}"%char in
    if (lastBrace >? startIndex)%Z
    then Some (substring text startIndex (lastBrace + 1))
    else None
  else if negb (firstBracket =? -1)%Z
  then
    let startIndex := firstBracket in
    let lastBracket := lastIndexOf text "]"%char in
    if (lastBracket >? startIndex)%Z
    then Some (substring text startIndex (lastBracket + 1))
    else None
  else None.

(** The spec's wording of structured extraction, for comparison with
    [extractJson]: the opening bracket that occurs first in the text
    decides the mode, and the span runs from it to the last occurrence of
    the complementary closing bracket behind it; there is no span when the
    text has no opening bracket or no such closing bracket behind it. *)
Definition isOpening (c : ascii) : bool :=
  chr_eqb c "{"%char || chr_eqb c "["%char.

Definition closerOf (opening : ascii) : ascii :=
  if chr_eqb opening "{"%char then "}"%char else "]"%char.

Definition spec_extract (text : jsstring) : option jsstring :=
  match dropWhile (fun c => negb (isOpening c)) text with
  | [] => None
  | opening :: behind =>
      match dropEndWhile (fun c => negb (chr_eqb c (closerOf opening)))
                         behind with
      | [] => None
      | span => Some (opening :: span)
      end
  end.

(** ** Values, errors and the trace of a streaming call *)

Record Error : Type := mkError { message : jsstring }.

(** What [JSON.parse] returns and property access yields.  Numbers are
    IEEE doubles; only whether one is truthy matters here, so their type
    is left open. *)
#[warnings="-register-all"]
Inductive JsValue (number : Type) : Type :=
| JUndefined
| JNull
| JBool (b : bool)
| JNumber (n : number)
| JString (s : jsstring)
| JArray (items : list (JsValue number))
| JObject (fields : list (jsstring * JsValue number)).

Arguments JUndefined {number}.
Arguments JNull {number}.
Arguments JBool {number} b.
Arguments JNumber {number} n.
Arguments JString {number} s.
Arguments JArray {number} items.
Arguments JObject {number} fields.

(** The body of a response as [reader.read()] hands it over: the decoded
    text of each chunk in arrival order, then either [done] or a
    rejection. *)
Record Body : Type := mkBody {
  decoded : list jsstring;
  failure : option Error
}.

Record Response : Type := mkResponse {
  ok : bool;
  status : N;
  statusText : jsstring;
  body : option Body;
  text : Error + jsstring          (* await response.text() *)
}.

Section Gateway.

Variable number : Type.

(** Truthiness of a double: false for zero and NaN. *)
Variable numberTruthy : number -> bool.

(** [JSON.parse]: the value, or the SyntaxError it throws. *)
Variable parse : jsstring -> Error + JsValue number.

Definition truthy (v : JsValue number) : bool :=
  match v with
  | JUndefined | JNull => false
  | JBool b => b
  | JNumber n => numberTruthy n
  | JString s => truthy_str s
  | JArray _ | JObject _ => true
  end.

Fixpoint lookup (key : jsstring) (fields : list (jsstring * JsValue number))
  : JsValue number :=
  match fields with
  | [] => JUndefined
  | (k, v) :: fields' => if str_eqb k key then v else lookup key fields'
  end.

Definition typeError : Error := mkError (lit "TypeError").

(** [v.key] for the two keys the gateway reads, [message] and [content],
    which no prototype defines: a TypeError on [null] and [undefined],
    the own property on an object, [undefined] elsewhere. *)
Definition getProp (v : JsValue number) (key : jsstring)
  : Error + JsValue number :=
  match v with
  | JUndefined | JNull => inl typeError
  | JObject fields => inr (lookup key fields)
  | _ => inr JUndefined
  end.

(** What a streaming call does that can be seen from outside, in order.
    The three callbacks are taken to return normally. *)
Inductive Action : Type :=
| JsonParse (line : jsstring)       (* JSON.parse(line) is evaluated *)
| ConsoleError                      (* console.error(...) *)
| OnChunk (chunk : JsValue number)
| OnError (e : Error)
| OnClose.

(** Computations that log actions and either return or throw. *)
Definition Eff (A : Type) : Type := list Action * (Error + A).

Definition ret {A : Type} (a : A) : Eff A := ([], inr a).

Definition throw {A : Type} (e : Error) : Eff A := ([], inl e).

Definition emit (a : Action) : Eff unit := ([a], inr tt).

Definition bind {A B : Type} (m : Eff A) (k : A -> Eff B) : Eff B :=
  match m with
  | (tr, inl e) => (tr, inl e)
  | (tr, inr a) => let (tr', r) := k a in (tr ++ tr', r)
  end.

Definition lift {A : Type} (r : Error + A) : Eff A := ([], r).

(** [try { m } catch (e) { handler e }] *)
Definition tryCatch {A : Type} (m : Eff A) (handler : Error -> Eff A)
  : Eff A :=
  match m with
  | (tr, inl e) => let (tr', r) := handler e in (tr ++ tr', r)
  | (tr, inr a) => (tr, inr a)
  end.

(** [try { m } finally { finalizer }]: a throwing finalizer replaces the
    outcome of [m]. *)
Definition tryFinally {A : Type} (m : Eff A) (finalizer : Eff unit)
  : Eff A :=
  let (tr, r) := m in
  match finalizer with
  | (tr', inl e) => (tr ++ tr', inl e)
  | (tr', inr _) => (tr ++ tr', r)
  end.

Notation "x <- m ;; k" := (bind m (fun x => k))
  (at level 61, m at next level, right associativity).
Notation "m ;;; k" := (bind m (fun _ => k))
  (at level 61, right associativity).

(** The body of the [for (const line of lines)] loop. *)
Definition processLine (line : jsstring) : Eff unit :=
  if str_eqb (trim line) [] then ret tt
  else
    tryCatch
      (emit (JsonParse line) ;;;
       chunkJson <- lift (parse line) ;;
       msg <- lift (getProp chunkJson (lit "message")) ;;
       if truthy msg then
         content <- lift (getProp msg (lit "content")) ;;
         if truthy content then emit (OnChunk content) else ret tt
       else ret tt)
      (fun _ => emit ConsoleError).

Fixpoint forEachLine (lines : list jsstring) : Eff unit :=
  match lines with
  | [] => ret tt
  | line :: lines' => processLine line ;;; forEachLine lines'
  end.

(** [buffer = lines.pop() || ''] *)
Definition nextBuffer (popped : option jsstring) : jsstring :=
  match popped with
  | Some l => if truthy_str l then l else []
  | None => []
  end.

(** The [while (true)] loop over [reader.read()]; its value is the
    line buffer at the [break]. *)
Fixpoint readLoop (reads : list jsstring) (failure : option Error)
  (buffer : jsstring) : Eff jsstring :=
  match reads with
  | [] =>
      match failure with
      | Some e => throw e
      | None => ret buffer
      end
  | value :: reads' =>
      let buffer1 := buffer ++ value in
      let (lines, popped) := pop (split LF buffer1) in
      forEachLine lines ;;;
      readLoop reads' failure (nextBuffer popped)
  end.

Definition showStatus (n : N) : jsstring :=
  lit (DecimalString.NilZero.string_of_uint (N.to_uint n)).

Definition requestFailed (r : Response) (errorText : jsstring) : Error :=
  mkError (lit "Request failed: " ++ showStatus (status r) ++ lit " "
           ++ statusText r ++ lit " - " ++ errorText).

(** [generateChatStream], from the outcome of [fetchWithTimeout] on: the
    fetch rejects (network failure, or the abort fired by the timer) or
    resolves to a response. *)
Definition generateChatStream (fetched : Error + Response) : Eff unit :=
  tryFinally
    (tryCatch
       (response <- lift fetched ;;
        match ok response, body response with
        | true, Some b =>
            readLoop (decoded b) (failure b) [] ;;; ret tt
        | _, _ =>
            errorText <- lift (text response) ;;
            throw (requestFailed response errorText)
        end)
       (fun error => emit ConsoleError ;;; emit (OnError error)))
    (emit OnClose).

(** ** [generateJson], from the outcome of [generate] on *)

Definition extractionError (response : jsstring) : Error :=
  mkError (lit "Model did not return a valid JSON object. Raw response: "
           ++ response).

Definition parseError (response : jsstring) : Error :=
  mkError (lit "Failed to parse JSON. Raw response: " ++ response).

Definition generateJson (generated : Error + jsstring)
  : Error + JsValue number :=
  match generated with
  | inl e => inl e
  | inr response =>
      match extractJson response with
      | None => inl (extractionError response)
      | Some jsonString =>
          if negb (truthy_str jsonString)
          then inl (extractionError response)
          else match parse jsonString with
               | inr v => inr v
               | inl _ => inl (parseError response)
               end
      end
  end.

End Gateway.

Arguments truthy {number} numberTruthy v.
Arguments lookup {number} key fields.
Arguments getProp {number} v key.
Arguments processLine {number} numberTruthy parse line.
Arguments forEachLine {number} numberTruthy parse lines.
Arguments readLoop {number} numberTruthy parse reads failure buffer.
Arguments generateChatStream {number} numberTruthy parse fetched.
Arguments generateJson {number} parse generated.
Arguments ConsoleError {number}.
Arguments OnClose {number}.
Arguments OnError {number} e.
Arguments OnChunk {number} chunk.
Arguments JsonParse {number} line.

End Ollama.

(* ===================================================================== *)
(** * The conversation orchestrator, [src/components/ChatView.tsx] *)
(* ===================================================================== *)
Module Chat.
Import JS.

Inductive MessageRole : Type := USER | ASSISTANT | SYSTEM.

Record ChatMessage : Type := mkMessage {
  role : MessageRole;
  content : jsstring
}.

Inductive ChatMode : Type := standby | listening | responding | speaking.

Definition ChatMode_eqb (a b : ChatMode) : bool :=
  match a, b with
  | standby, standby | listening, listening
  | responding, responding | speaking, speaking => true
  | _, _ => false
  end.

(** The effect that mirrors the hook's state into [mode]: the mode it
    leaves behind ([mode] itself when [setMode] is not called). *)
Definition syncMode (speechState : Speech.SpeechState) (mode : ChatMode)
  : ChatMode :=
  if Speech.SpeechState_eqb speechState Speech.speaking
     && negb (ChatMode_eqb mode speaking)
  then speaking
  else if negb (Speech.SpeechState_eqb speechState Speech.speaking)
          && ChatMode_eqb mode speaking
  then standby
  else mode.

(** The message list, and the arguments of the calls to
    [speechHook.speak] so far, oldest first. *)
Record View : Type := mkView {
  messages : list ChatMessage;
  spoken : list jsstring
}.

Definition isAssistant (m : ChatMessage) : bool :=
  match role m with ASSISTANT => true | _ => false end.

(** The updater of the chunk callback.  On an empty list
    [updatedMessages[-1]] is [undefined] and reading its [role] throws:
    [None]. *)
Definition appendChunk (chunk : jsstring) (prev : list ChatMessage)
  : option (list ChatMessage) :=
  match rev prev with
  | [] => None
  | lastMsg :: before =>
      if isAssistant lastMsg
      then Some (rev before
                 ++ [mkMessage (role lastMsg) (content lastMsg ++ chunk)])
      else Some prev
  end.

Definition onChunk (chunk : jsstring) (v : View) : option View :=
  match appendChunk chunk (messages v) with
  | Some ms => Some (mkView ms (spoken v ++ [chunk]))
  | None => None
  end.

(** [`Sorry, I encountered an error: ${error.message}`] *)
Definition errorMessage (e : Ollama.Error) : jsstring :=
  lit "Sorry, I encountered an error: " ++ Ollama.message e.

(** The updater of the error callback: [updated[updated.length - 1] = m].
    On an empty list this sets the property [-1], which is no element. *)
Definition replaceLast (m : ChatMessage) (prev : list ChatMessage)
  : list ChatMessage :=
  match rev prev with
  | [] => prev
  | _ :: before => rev before ++ [m]
  end.

Definition onError (e : Ollama.Error) (v : View) : View :=
  mkView (replaceLast (mkMessage ASSISTANT (errorMessage e)) (messages v))
         (spoken v ++ [errorMessage e]).

(** The part of [handleUserMessage] before the request: [seenMessages]
    is the list the function closed over. *)
Definition beginTurn (seenMessages : list ChatMessage) (userText : jsstring)
  (v : View) : View :=
  mkView (seenMessages ++ [mkMessage USER userText]
                       ++ [mkMessage ASSISTANT []])
         (spoken v).

(** The callbacks run on the trace of a streaming call.  A chunk that is
    not a string makes [speak] throw at [text.match] before anything is
    changed; the gateway's per-line [catch] swallows that. *)
Definition deliverOne {number : Type} (a : Ollama.Action number) (v : View)
  : option View :=
  match a with
  | Ollama.OnChunk (Ollama.JString chunk) => onChunk chunk v
  | Ollama.OnError e => Some (onError e v)
  | _ => Some v
  end.

Fixpoint deliver {number : Type} (tr : list (Ollama.Action number))
  (v : View) : option View :=
  match tr with
  | [] => Some v
  | a :: tr' =>
      match deliverOne a v with
      | Some v' => deliver tr' v'
      | None => None
      end
  end.

(** [handleUserMessage]: the view after the streaming call has run to its
    end ([None] when an updater threw). *)
Definition handleUserMessage {number : Type}
  (numberTruthy : number -> bool)
  (parse : jsstring -> Ollama.Error + Ollama.JsValue number)
  (fetched : Ollama.Error + Ollama.Response)
  (seenMessages : list ChatMessage) (userText : jsstring) (v : View)
  : option View :=
  deliver (fst (Ollama.generateChatStream numberTruthy parse fetched))
          (beginTurn seenMessages userText v).

End Chat.

(* ===================================================================== *)
(** * Single-shot requests, [src/services/ollama.ts] *)
(* ===================================================================== *)
Module Strategies.
Import JS Ollama.

(** What [fetchWithTimeout] resolves to for a request without streaming:
    [response.ok], [response.status], and what [response.text()] and
    [response.json()] give. *)
Record Reply (A : Type) : Type := mkReply {
  replyOk : bool;
  replyStatus : N;
  replyText : Error + jsstring;
  replyJson : Error + A
}.

Arguments mkReply {A} replyOk replyStatus replyText replyJson.
Arguments replyOk {A} r.
Arguments replyStatus {A} r.
Arguments replyText {A} r.
Arguments replyJson {A} r.








Record OllamaModel : Type := mkModel {
  name : jsstring;
  modified_at : jsstring;
  size : N
}.

Definition modelsError (status : N) (errorText : jsstring) : Error :=
  mkError (lit "Failed to fetch models from Ollama: " ++ showStatus status
           ++ lit " " ++ errorText).

(** [getModels]: [data.models]; of the body the reply holds that field,
    which is [undefined] ([None]) when the body has none. *)
Definition getModels (fetched : Error + Reply (option (list OllamaModel)))
  : Error + option (list OllamaModel) :=
  match fetched with
  | inl e => inl e
  | inr r =>
      if negb (replyOk r) then
        match replyText r with
        | inl e => inl e
        | inr errorText => inl (modelsError (replyStatus r) errorText)
        end
      else replyJson r
  end.

End Strategies.

(* ===================================================================== *)
(** * The settings provider, [src/context/SettingsContext.tsx] *)
(* ===================================================================== *)
Module Settings.
Import JS Ollama Strategies.

Section Provider.

(** The type of [temperature], a double. *)
Variable number : Type.

Record Settings : Type := mkSettings {
  ollamaUrl : jsstring;
  selectedModel : jsstring;
  systemPrompt : jsstring;
  temperature : number;
  triggerWord : jsstring
}.

(** The [useState] cells of the provider. *)
Record Provider : Type := mkProvider {
  settings : Settings;
  availableModels : list OllamaModel;
  isModelLoading : bool;
  connectionError : option jsstring
}.

Definition connectionMessage : jsstring :=
  lit "Failed to connect to Ollama. Please check the URL and ensure Ollama is running.".

Definition selectModel (model : jsstring) (s : Settings) : Settings :=
  mkSettings (ollamaUrl s) model (systemPrompt s) (temperature s)
             (triggerWord s).

(** [models.some(m => m.name === selected)] *)
Definition offers (models : list OllamaModel) (selected : jsstring) : bool :=
  existsb (fun m => str_eqb (name m) selected) models.

(** [refreshModels], from the outcome of the fetch of [getModels] on.
    [seenSelected] is the [settings.selectedModel] the callback closed
    over.  When [data.models] is [undefined], reading its [length]
    throws, and the [catch] takes over as for any other failure. *)
Definition refreshModels (seenSelected : jsstring)
  (fetched : Error + Reply (option (list OllamaModel))) (p : Provider)
  : Provider :=
  match getModels fetched with
  | inr (Some models) =>
      let settings' :=
        match models with
        | first :: _ =>
            if negb (offers models seenSelected)
            then selectModel (name first) (settings p)
            else settings p
        | [] => settings p
        end in
      mkProvider settings' models false None
  | inr None | inl _ =>
      mkProvider (settings p) [] false (Some connectionMessage)
  end.

End Provider.

Arguments mkSettings {number} ollamaUrl selectedModel systemPrompt
  temperature triggerWord.
Arguments ollamaUrl {number} s.
Arguments selectedModel {number} s.
Arguments systemPrompt {number} s.
Arguments temperature {number} s.
Arguments triggerWord {number} s.
Arguments mkProvider {number} settings availableModels isModelLoading
  connectionError.
Arguments settings {number} p.
Arguments availableModels {number} p.
Arguments isModelLoading {number} p.
Arguments connectionError {number} p.
Arguments selectModel {number} model s.
Arguments refreshModels {number} seenSelected fetched p.

End Settings.

(* ===================================================================== *)
(** * The handlers of the chat view, [src/components/ChatView.tsx] *)
(* ===================================================================== *)
Module ChatControls.
Import JS Chat.

(** [handleTranscript]: the mode it sets, and the text it passes to
    [handleUserMessage], if it does. *)
Definition handleTranscript (transcript : jsstring)
  : ChatMode * option jsstring :=
  if truthy_str transcript then (responding, Some transcript)
  else (standby, None).

(** What a submission of the text form does when it is not ignored: it
    calls [speechHook.stop()], sets the mode, passes [userText] to
    [handleUserMessage] and sets the input field. *)
Record Submission : Type := mkSubmission {
  newMode : ChatMode;
  userText : jsstring;
  newInput : jsstring
}.

(** [handleTextInputSubmit]: [None] when it returns early. *)
Definition handleTextInputSubmit (mode : ChatMode) (inputText : jsstring)
  : option Submission :=
  let text := trim inputText in
  if negb (truthy_str text)
     || ChatMode_eqb mode listening
     || ChatMode_eqb mode responding
  then None
  else Some (mkSubmission responding text []).

End ChatControls.

(* ===================================================================== *)
(** * Facts about the string primitives *)
(* ===================================================================== *)
Module JSFacts.
Import JS.

Section Spans.

Context {A : Type} (p : A -> bool).

Lemma takeWhile_dropWhile (l : list A) :
  takeWhile p l ++ dropWhile p l = l.
Proof.
  induction l as [|x l IH]; simpl; [reflexivity|].
  destruct (p x); simpl; [now rewrite IH | reflexivity].
Qed.

Lemma takeWhile_forallb (l : list A) : forallb p (takeWhile p l) = true.
Proof.
  induction l as [|x l IH]; simpl; [reflexivity|].
  destruct (p x) eqn:E; simpl; [now rewrite E | reflexivity].
Qed.

Lemma dropWhile_head (l : list A) x r :
  dropWhile p l = x :: r -> p x = false.
Proof.
  induction l as [|y l IH]; simpl; [discriminate|].
  destruct (p y) eqn:E; [exact IH|].
  intros H; injection H as -> _; exact E.
Qed.

Lemma dropWhile_length (l : list A) : length (dropWhile p l) <= length l.
Proof.
  induction l as [|x l IH]; simpl; [lia|].
  destruct (p x); simpl; lia.
Qed.

Lemma dropWhile_all (l : list A) :
  forallb p l = true -> dropWhile p l = [].
Proof.
  induction l as [|x l IH]; simpl; [reflexivity|].
  destruct (p x); simpl; [exact IH | discriminate].
Qed.

Lemma dropWhile_nil_all (l : list A) :
  dropWhile p l = [] -> forallb p l = true.
Proof.
  induction l as [|x l IH]; simpl; [reflexivity|].
  destruct (p x); simpl; [exact IH | discriminate].
Qed.

Lemma takeWhile_all (l : list A) :
  forallb p l = true -> takeWhile p l = l.
Proof.
  induction l as [|x l IH]; simpl; [reflexivity|].
  destruct (p x); simpl; [intros H; now rewrite IH | discriminate].
Qed.

Lemma dropWhile_fixed (l : list A) x r :
  l = x :: r -> p x = false -> dropWhile p l = l.
Proof. intros -> H; simpl; now rewrite H. Qed.

Lemma dropWhile_app_all (l r : list A) :
  forallb p l = true -> dropWhile p (l ++ r) = dropWhile p r.
Proof.
  induction l as [|x l IH]; simpl; [reflexivity|].
  destruct (p x); simpl; [exact IH | discriminate].
Qed.

Lemma dropWhile_app_stop (l r : list A) :
  dropWhile p l <> [] -> dropWhile p (l ++ r) = dropWhile p l ++ r.
Proof.
  induction l as [|x l IH]; simpl; [congruence|].
  destruct (p x); simpl; [exact IH | reflexivity].
Qed.

Lemma dropEndWhile_app_all (l r : list A) :
  forallb p r = true -> dropEndWhile p (l ++ r) = dropEndWhile p l.
Proof.
  intros H. unfold dropEndWhile. rewrite rev_app_distr.
  rewrite dropWhile_app_all; [reflexivity|].
  rewrite forallb_forall in *. intros x Hx. apply H.
  now apply in_rev.
Qed.

Lemma dropEndWhile_nil_all (l : list A) :
  dropEndWhile p l = [] -> forallb p l = true.
Proof.
  unfold dropEndWhile. intros H.
  assert (E : dropWhile p (rev l) = []).
  { rewrite <- (rev_involutive (dropWhile p (rev l))), H. reflexivity. }
  apply dropWhile_nil_all in E.
  rewrite forallb_forall in *. intros x Hx. apply E.
  now apply in_rev in Hx.
Qed.

(** A list is what [dropEndWhile] keeps, then a run of [p]-elements. *)
Lemma dropEndWhile_split (l : list A) :
  exists tl, l = dropEndWhile p l ++ tl /\ forallb p tl = true.
Proof.
  exists (rev (takeWhile p (rev l))). split.
  - unfold dropEndWhile. rewrite <- rev_app_distr, takeWhile_dropWhile.
    now rewrite rev_involutive.
  - rewrite forallb_forall. intros x Hx. apply in_rev in Hx.
    pose proof (takeWhile_forallb (rev l)) as H.
    rewrite forallb_forall in H. now apply H.
Qed.

(** What [dropEndWhile] keeps is empty or ends in a non-[p] element. *)
Lemma dropEndWhile_last (l : list A) :
  dropEndWhile p l = []
  \/ exists m x, dropEndWhile p l = m ++ [x] /\ p x = false.
Proof.
  unfold dropEndWhile.
  destruct (dropWhile p (rev l)) as [|x r] eqn:E; [now left|].
  right. exists (rev r), x. split; [reflexivity|].
  eapply dropWhile_head; eassumption.
Qed.

End Spans.

Lemma dropWhile_weaker {A : Type} (p q : A -> bool) (l : list A) :
  (forall x, p x = true -> q x = true) ->
  dropWhile q (dropWhile p l) = dropWhile q l.
Proof.
  intros H. induction l as [|x l IH]; simpl; [reflexivity|].
  destruct (p x) eqn:E.
  - rewrite (H x E). exact IH.
  - reflexivity.
Qed.

Lemma chr_eqb_eq (a b : ascii) : chr_eqb a b = true <-> a = b.
Proof. apply Ascii.eqb_eq. Qed.

Lemma chr_eqb_refl (a : ascii) : chr_eqb a a = true.
Proof. apply Ascii.eqb_refl. Qed.

Lemma str_eqb_eq (a b : jsstring) : str_eqb a b = true <-> a = b.
Proof.
  unfold str_eqb. destruct (list_eq_dec ascii_dec a b); split;
    congruence.
Qed.

Lemma str_eqb_refl (a : jsstring) : str_eqb a a = true.
Proof. now apply str_eqb_eq. Qed.

(** White space is neither a terminator nor a bracket. *)
Lemma isWhiteSpace_cases (c : ascii) :
  isWhiteSpace c = true ->
  In (N_of_ascii c) [9; 10; 11; 12; 13; 32; 160]%N.
Proof.
  unfold isWhiteSpace. rewrite existsb_exists.
  intros (n & Hin & E). apply N.eqb_eq in E. now subst.
Qed.

Lemma isWhiteSpace_not (c d : ascii) :
  isWhiteSpace c = true ->
  ~ In (N_of_ascii d) [9; 10; 11; 12; 13; 32; 160]%N ->
  chr_eqb c d = false.
Proof.
  intros Hc Hd. destruct (chr_eqb c d) eqn:E; [|reflexivity].
  apply chr_eqb_eq in E. subst. exfalso. apply Hd.
  now apply isWhiteSpace_cases.
Qed.

Lemma isWhiteSpace_isBody (c : ascii) :
  isWhiteSpace c = true -> isBody c = true.
Proof.
  intros H. unfold isBody, isTerminator.
  rewrite !(isWhiteSpace_not c _ H); [reflexivity| | |];
    vm_compute; intuition discriminate.
Qed.

(** A string that [trim] empties is white space throughout. *)
Lemma trim_nil_all (s : jsstring) :
  trim s = [] -> forallb isWhiteSpace s = true.
Proof.
  unfold trim. intros H. apply dropEndWhile_nil_all in H.
  rewrite forallb_forall in *. intros x Hx.
  destruct (isWhiteSpace x) eqn:E; [reflexivity|].
  assert (Hd : dropWhile isWhiteSpace s <> []).
  { intros Hn. apply dropWhile_nil_all in Hn.
    rewrite forallb_forall in Hn. rewrite (Hn x Hx) in E. discriminate. }
  pose proof (takeWhile_dropWhile isWhiteSpace s) as Hs.
  rewrite <- Hs in Hx. apply in_app_or in Hx. destruct Hx as [Hx|Hx].
  - pose proof (takeWhile_forallb isWhiteSpace s) as Ht.
    rewrite forallb_forall in Ht. rewrite (Ht x Hx) in E. discriminate.
  - rewrite (H x Hx) in E. discriminate.
Qed.

Lemma trim_all_nil (s : jsstring) :
  forallb isWhiteSpace s = true -> trim s = [].
Proof.
  intros H. unfold trim. now rewrite dropWhile_all.
Qed.

End JSFacts.

(* ===================================================================== *)
(** * The speech hook: text to speech *)
(* ===================================================================== *)
Module SpeechFacts.
Import JS JSFacts Speech.

(** The shape of one match of the regular expression: a non-empty run
    without terminator, then a run of delimiters. *)
Definition Fragment (f : jsstring) : Prop :=
  exists body tail,
    f = body ++ tail /\ body <> []
    /\ forallb isBody body = true /\ forallb isDelimiter tail = true.

Lemma matchAt_terminator (c : ascii) (s : jsstring) :
  isTerminator c = true -> matchAt (c :: s) = None.
Proof.
  intros H. assert (Hb : isBody c = false) by (unfold isBody; now rewrite H).
  unfold matchAt. cbn [takeWhile]. now rewrite Hb.
Qed.

Lemma matchAt_body (c : ascii) (s : jsstring) :
  isTerminator c = false ->
  matchAt (c :: s)
  = Some ((c :: takeWhile isBody s)
            ++ takeWhile isDelimiter (dropWhile isBody s),
          dropWhile isDelimiter (dropWhile isBody s)).
Proof.
  intros H. assert (Hb : isBody c = true) by (unfold isBody; now rewrite H).
  unfold matchAt. cbn [takeWhile dropWhile]. now rewrite Hb.
Qed.

Lemma isDelimiter_terminator (c : ascii) :
  isDelimiter c = false -> isTerminator c = false.
Proof.
  unfold isDelimiter. destruct (isTerminator c); [discriminate|reflexivity].
Qed.

(** Behind a match the text is empty or starts with a unit that is no
    delimiter, so nothing is skipped between two matches. *)
Lemma dropWhile_terminator_rest (s : jsstring) :
  dropWhile isTerminator (dropWhile isDelimiter s) = dropWhile isDelimiter s.
Proof.
  destruct (dropWhile isDelimiter s) as [|x r] eqn:E; [reflexivity|].
  apply dropWhile_head in E. apply isDelimiter_terminator in E.
  simpl. now rewrite E.
Qed.

Lemma matchAllFuel_sound (fuel : nat) :
  forall s, length s <= fuel ->
    concat (matchAllFuel fuel s) = dropWhile isTerminator s
    /\ Forall Fragment (matchAllFuel fuel s).
Proof.
  induction fuel as [|fuel IH]; intros s Hlen.
  - destruct s; [simpl; auto | simpl in Hlen; lia].
  - destruct s as [|c s]; [simpl; auto|].
    simpl in Hlen.
    destruct (isTerminator c) eqn:Hc.
    + cbn [matchAllFuel]. rewrite (matchAt_terminator c s Hc).
      destruct (IH s ltac:(lia)) as [E F].
      split; [simpl; rewrite Hc; exact E | exact F].
    + cbn [matchAllFuel]. rewrite (matchAt_body c s Hc).
      set (r := dropWhile isBody s).
      assert (Hr : length (dropWhile isDelimiter r) <= fuel).
      { pose proof (dropWhile_length isDelimiter r).
        pose proof (dropWhile_length isBody s). subst r. lia. }
      destruct (IH _ Hr) as [E F]. split.
      * cbn [concat]. rewrite E, dropWhile_terminator_rest.
        rewrite <- app_assoc, takeWhile_dropWhile. subst r.
        simpl. rewrite takeWhile_dropWhile. now rewrite Hc.
      * constructor; [|exact F].
        exists (c :: takeWhile isBody s), (takeWhile isDelimiter r).
        repeat split; try discriminate.
        -- simpl. unfold isBody at 1. rewrite Hc. simpl.
           apply takeWhile_forallb.
        -- apply takeWhile_forallb.
Qed.

(** Where the cuts fall: a fragment that another one follows holds a
    terminator, and a fragment that follows another one starts with a
    unit that is no delimiter.  With the shape of the fragments this
    fixes every cut: it lies behind the whole run of delimiters that
    starts at the first terminator of the fragment. *)
Definition cleanStart (f : jsstring) : bool :=
  match f with
  | [] => false
  | c :: _ => negb (isDelimiter c)
  end.

Definition startsClean (s : jsstring) : bool :=
  match s with
  | [] => true
  | c :: _ => negb (isDelimiter c)
  end.

Definition hasTerminator (f : jsstring) : bool := existsb isTerminator f.

Lemma startsClean_dropWhile (s : jsstring) :
  startsClean (dropWhile isDelimiter s) = true.
Proof.
  destruct (dropWhile isDelimiter s) as [|x r] eqn:E; [reflexivity|].
  apply dropWhile_head in E. simpl. now rewrite E.
Qed.

Lemma matchAllFuel_nil (fuel : nat) : matchAllFuel fuel [] = [].
Proof. now destruct fuel. Qed.

Lemma matchAllFuel_cuts (fuel : nat) :
  forall s, length s <= fuel ->
    forallb cleanStart (tl (matchAllFuel fuel s)) = true
    /\ (startsClean s = true ->
        forallb cleanStart (matchAllFuel fuel s) = true)
    /\ forallb hasTerminator (removelast (matchAllFuel fuel s)) = true.
Proof.
  induction fuel as [|fuel IH]; intros s Hlen.
  - now simpl.
  - destruct s as [|c s]; [now simpl|].
    simpl in Hlen. destruct (isTerminator c) eqn:Hc.
    + cbn [matchAllFuel]. rewrite (matchAt_terminator c s Hc).
      destruct (IH s ltac:(lia)) as (I1 & _ & I3).
      split; [exact I1|]. split; [|exact I3].
      simpl. unfold isDelimiter. rewrite Hc. discriminate.
    + cbn [matchAllFuel]. rewrite (matchAt_body c s Hc).
      set (r := dropWhile isBody s).
      assert (Hr : length (dropWhile isDelimiter r) <= fuel).
      { pose proof (dropWhile_length isDelimiter r).
        pose proof (dropWhile_length isBody s). subst r. lia. }
      destruct (IH _ Hr) as (_ & I2 & I3).
      specialize (I2 (startsClean_dropWhile r)).
      split; [exact I2|]. split.
      * intros Hs. cbn [forallb]. rewrite I2. simpl in Hs.
        simpl. now rewrite Hs.
      * destruct (matchAllFuel fuel (dropWhile isDelimiter r))
          as [|m ms] eqn:Em; [reflexivity|].
        change (removelast (?x :: m :: ms)) with (x :: removelast (m :: ms)).
        cbn [forallb]. rewrite I3, andb_true_r.
        (* another fragment follows, so the text goes on behind the
           body, and it goes on with a terminator *)
        destruct r as [|x r'] eqn:Er.
        { simpl in Em. rewrite matchAllFuel_nil in Em. discriminate. }
        assert (Hx : isTerminator x = true).
        { subst r. apply dropWhile_head in Er. unfold isBody in Er.
          now apply negb_false_iff in Er. }
        unfold hasTerminator. rewrite existsb_app. cbn [takeWhile].
        unfold isDelimiter at 1. rewrite Hx. cbn [orb existsb].
        rewrite Hx. cbn [orb]. apply orb_true_r.
Qed.

Lemma matchSentences_some (text : jsstring) (ms : list jsstring) :
  matchSentences text = Some ms ->
  concat ms = dropWhile isTerminator text
  /\ Forall Fragment ms
  /\ forallb cleanStart (tl ms) = true
  /\ forallb hasTerminator (removelast ms) = true.
Proof.
  unfold matchSentences. intros H.
  destruct (matchAllFuel_sound (length text) text (le_n _)) as [E F].
  destruct (matchAllFuel_cuts (length text) text (le_n _))
    as (C1 & _ & C3).
  destruct (matchAllFuel (length text) text) as [|m r]; [discriminate|].
  injection H as <-. auto.
Qed.

Lemma matchSentences_none (text : jsstring) :
  matchSentences text = None -> forallb isTerminator text = true.
Proof.
  unfold matchSentences. intros H.
  destruct (matchAllFuel_sound (length text) text (le_n _)) as [E _].
  destruct (matchAllFuel (length text) text) as [|m r]; [|discriminate].
  simpl in E. symmetry in E. now apply dropWhile_nil_all.
Qed.

(** A text without terminator is one match as a whole. *)
Lemma sentencesOf_body (text : jsstring) :
  forallb isBody text = true -> sentencesOf text = [text].
Proof.
  intros H. unfold sentencesOf, matchSentences.
  destruct text as [|c s]; [reflexivity|].
  cbn [length matchAllFuel].
  assert (Hc : isTerminator c = false).
  { simpl in H. apply andb_true_iff in H. destruct H as [H _].
    unfold isBody in H. now destruct (isTerminator c). }
  rewrite (matchAt_body c s Hc).
  simpl in H. apply andb_true_iff in H. destruct H as [_ H].
  rewrite (takeWhile_all _ _ H), (dropWhile_all _ _ H). simpl.
  rewrite app_nil_r. now destruct (length s).
Qed.

(** Nothing of a blank text survives the filter of [speak]. *)
Lemma blank_enqueues_nothing (text : jsstring) :
  trim text = [] -> filter nonBlank (sentencesOf text) = [].
Proof.
  intros H. pose proof (trim_nil_all _ H) as Hw.
  rewrite sentencesOf_body.
  - simpl. unfold nonBlank. now rewrite H.
  - rewrite forallb_forall in *. intros x Hx.
    apply isWhiteSpace_isBody. now apply Hw.
Qed.

Lemma processSentenceQueue_empty (seen : SpeechState) (h : Hook) :
  sentenceQueueRef h = [] -> processSentenceQueue seen h = (h, []).
Proof.
  intros H. unfold processSentenceQueue. rewrite H. simpl.
  now rewrite orb_true_r.
Qed.

Lemma setSentenceQueue_same (h : Hook) :
  setSentenceQueue (sentenceQueueRef h) h = h.
Proof. now destruct h. Qed.

(** Playback takes at most the head off the queue. *)
Lemma processSentenceQueue_queue (seen : SpeechState) (h : Hook) :
  sentenceQueueRef h = sentenceQueueRef (fst (processSentenceQueue seen h))
  \/ exists x,
       sentenceQueueRef h
       = x :: sentenceQueueRef (fst (processSentenceQueue seen h)).
Proof.
  unfold processSentenceQueue.
  destruct (SpeechState_eqb seen speaking || _); [now left|].
  destruct h as [st pe rr q w]. simpl.
  destruct q as [|x q]; [now left|].
  right. exists x. now destruct (truthy_str x).
Qed.

(** C1 (as amended).  [speak] cuts the text behind each run of the
    delimiters '.', '!', '?' and line feed that begins with '.', '!' or
    '?': the fragments, put together again, are the text from its first
    unit that is no terminator on; each is a non-empty run without
    terminator followed by a run of delimiters, white space and interior
    line feeds kept as they are; each but the last holds a terminator and
    each but the first starts with a unit that is no delimiter; a text of
    terminators only is one fragment.  The fragments that are not blank
    are appended to the queue in order, and playback takes at most the
    head of the queue.  For "A. B! C?" the fragments are "A.", " B!" and
    " C?". *)
Theorem speak_enqueues_fragments (seen : SpeechState) (text : jsstring)
  (h : Hook) :
  sentenceQueueRef (enqueue text h)
  = sentenceQueueRef h ++ filter nonBlank (sentencesOf text)
  /\ (sentenceQueueRef (enqueue text h)
      = sentenceQueueRef (fst (speak seen text h))
      \/ exists x, sentenceQueueRef (enqueue text h)
                   = x :: sentenceQueueRef (fst (speak seen text h)))
  /\ match matchSentences text with
     | Some ms =>
         sentencesOf text = ms
         /\ concat ms = dropWhile isTerminator text
         /\ Forall Fragment ms
         /\ forallb cleanStart (tl ms) = true
         /\ forallb hasTerminator (removelast ms) = true
     | None =>
         sentencesOf text = [text] /\ forallb isTerminator text = true
     end
  /\ sentencesOf (lit "A. B! C?") = [lit "A."; lit " B!"; lit " C?"].
Proof.
  split; [reflexivity|].
  split; [apply processSentenceQueue_queue|].
  split; [|reflexivity].
  unfold sentencesOf.
  destruct (matchSentences text) as [ms|] eqn:E.
  - split; [reflexivity|]. now apply matchSentences_some.
  - split; [reflexivity|]. now apply matchSentences_none.
Qed.

(** C1 as stated fails: the fragments of "A. B! C?" keep their leading
    space, and a line feed alone does not end a fragment. *)
Lemma speak_fragments_counterexample :
  sentenceQueueRef (enqueue (lit "A. B! C?") (initial true))
  = [lit "A."; lit " B!"; lit " C?"]
  /\ sentenceQueueRef (enqueue (lit "A. B! C?") (initial true))
     <> [lit "A."; lit "B!"; lit "C?"]
  /\ sentenceQueueRef
       (enqueue (lit "one" ++ [LF] ++ lit "two") (initial true))
     = [lit "one" ++ [LF] ++ lit "two"].
Proof.
  split; [reflexivity|]. split; [|reflexivity].
  vm_compute. discriminate.
Qed.

(** C9 (as amended).  With the state [idle] and the queue empty, [speak]
    of an empty or blank text changes nothing and starts nothing. *)
Theorem speak_blank_idle (seen : SpeechState) (text : jsstring) (h : Hook) :
  trim text = [] ->
  speechState h = idle ->
  sentenceQueueRef h = [] ->
  speak seen text h = (h, []).
Proof.
  intros Hblank _ Hq. unfold speak, enqueue.
  rewrite (blank_enqueues_nothing _ Hblank), app_nil_r.
  rewrite setSentenceQueue_same. now apply processSentenceQueue_empty.
Qed.

Lemma speak_blank_idle_witness :
  speak idle [] (initial true) = (initial true, [])
  /\ speak idle (lit "   ") (initial true) = (initial true, []).
Proof.
  split.
  - apply (speak_blank_idle idle [] (initial true)); reflexivity.
  - apply (speak_blank_idle idle (lit "   ") (initial true)); reflexivity.
Defined.

(** C9 as stated fails.  A standby session is running, [speak] starts
    the playback of "Hi." with " There." still queued, and a recognition
    error sets the state back to [idle].  In that state [speak("")]
    starts the playback of the queued fragment: the queue loses its head
    and the state becomes [speaking]. *)
Lemma speak_blank_counterexample :
  let h :=
    fst (run [CallStartStandby (render (initial true)) (lit "hey assistant");
              CallSpeak standby (lit "Hi. There.");
              RecognitionError (lit "network")]
             (initial true)) in
  speechState h = idle
  /\ sentenceQueueRef h = [lit " There."]
  /\ speechState (fst (speak (speechState h) [] h)) = speaking
  /\ sentenceQueueRef (fst (speak (speechState h) [] h)) = []
  /\ speak (speechState h) [] h <> (h, []).
Proof.
  repeat split; try reflexivity.
  vm_compute. discriminate.
Qed.

(* --------------------------------------------------------------------- *)
(** ** Wake word *)

Definition resultMatches (triggerWord : jsstring)
  (ev : SpeechRecognitionEvent) : bool :=
  wakeMatch triggerWord (lastResult ev).

Definition results (evs : list SpeechRecognitionEvent) : list Action :=
  map RecognitionResult evs.

Lemma lowerChar_idempotent (c : ascii) :
  lowerChar (lowerChar c) = lowerChar c.
Proof.
  destruct c as [[] [] [] [] [] [] [] []]; reflexivity.
Qed.

Lemma toLowerCase_idempotent (s : jsstring) :
  toLowerCase (toLowerCase s) = toLowerCase s.
Proof.
  unfold toLowerCase. rewrite map_map.
  apply map_ext. apply lowerChar_idempotent.
Qed.

(** A standby session: the standby handlers are installed, and results
    leave them installed. *)
Lemma standby_results_run (triggerWord : jsstring) (seen : SpeechState)
  (evs : list SpeechRecognitionEvent) :
  forall h,
    installed h = StandbyHandlers triggerWord seen ->
    installed (fst (run (results evs) h))
    = StandbyHandlers triggerWord seen
    /\ wakeWordDetectedRef (fst (run (results evs) h))
       = wakeWordDetectedRef h || existsb (resultMatches triggerWord) evs
    /\ snd (run (results evs) h)
       = if negb (wakeWordDetectedRef h)
            && existsb (resultMatches triggerWord) evs
         then [Activation] else [].
Proof.
  induction evs as [|ev evs IH]; intros h Hh.
  - simpl. rewrite orb_false_r, andb_false_r. auto.
  - cbn [results map run step]. rewrite Hh.
    unfold standby_onresult. fold (resultMatches triggerWord ev).
    cbn [existsb].
    destruct (resultMatches triggerWord ev) eqn:Em;
      destruct (wakeWordDetectedRef h) eqn:Ew; cbn [andb negb orb].
    + destruct (IH h Hh) as (I1 & I2 & I3).
      fold (results evs).
      destruct (run (results evs) h) as [h2 es2]. simpl in *.
      rewrite I1, I2, I3, Ew. auto.
    + assert (Hh' : installed (setWakeWordDetected true h)
                    = StandbyHandlers triggerWord seen)
        by (destruct h; exact Hh).
      destruct (IH _ Hh') as (I1 & I2 & I3).
      fold (results evs).
      destruct (run (results evs) (setWakeWordDetected true h))
        as [h2 es2]. simpl in *.
      rewrite I1, I2, I3. destruct h; simpl. auto.
    + destruct (IH h Hh) as (I1 & I2 & I3).
      fold (results evs).
      destruct (run (results evs) h) as [h2 es2]. simpl in *.
      rewrite I1, I2, I3, Ew. auto.
    + destruct (IH h Hh) as (I1 & I2 & I3).
      fold (results evs).
      destruct (run (results evs) h) as [h2 es2]. simpl in *.
      rewrite I1, I2, I3, Ew. auto.
Qed.

(** What a successful [startStandby] leaves behind. *)
Lemma startStandby_session (seen : Render) (triggerWord : jsstring)
  (h : Hook) :
  truthy_opt (seenPermission seen) = false ->
  recognitionRef h <> None ->
  triggerWord <> [] ->
  installed (fst (startStandby seen triggerWord h))
  = StandbyHandlers triggerWord (seenState seen)
  /\ wakeWordDetectedRef (fst (startStandby seen triggerWord h)) = false
  /\ speechState (fst (startStandby seen triggerWord h)) = standby.
Proof.
  intros Hp Hr Ht. unfold startStandby, stopCurrentRecognition.
  rewrite Hp. destruct h as [st pe [r|] q w]; [|simpl in Hr; congruence].
  destruct triggerWord; [congruence|]. simpl. auto.
Qed.

(** C5 (as amended).  In a standby session the test on a result event is
    that the most recent segment, lowercased and trimmed, contains the
    lowercased trigger phrase, so the case of either does not matter.
    For every sequence of result events of the session, the event at any
    position invokes the activation callback exactly when it passes the
    test and no earlier event of the session did: the first passing
    result activates, no later one does, and the session as a whole
    activates at most once. *)
Theorem wake_word_fires_once (seen : Render) (triggerWord : jsstring)
  (h : Hook) (earlier : list SpeechRecognitionEvent)
  (ev : SpeechRecognitionEvent) (later : list SpeechRecognitionEvent) :
  truthy_opt (seenPermission seen) = false ->
  recognitionRef h <> None ->
  triggerWord <> [] ->
  let session := fst (startStandby seen triggerWord h) in
  resultMatches triggerWord ev
  = includes (trim (toLowerCase (lastResult ev))) (toLowerCase triggerWord)
  /\ wakeMatch triggerWord (lastResult ev)
     = wakeMatch (toLowerCase triggerWord) (toLowerCase (lastResult ev))
  /\ snd (step (RecognitionResult ev)
               (fst (run (results earlier) session)))
     = (if resultMatches triggerWord ev
           && negb (existsb (resultMatches triggerWord) earlier)
        then [Activation] else [])
  /\ snd (run (results (earlier ++ ev :: later)) session)
     = (if existsb (resultMatches triggerWord) (earlier ++ ev :: later)
        then [Activation] else []).
Proof.
  intros Hp Hr Ht session.
  destruct (startStandby_session seen triggerWord h Hp Hr Ht)
    as (Hi & Hw & _).
  fold session in Hi, Hw.
  split; [reflexivity|].
  split; [unfold wakeMatch; now rewrite !toLowerCase_idempotent|].
  split.
  - destruct (standby_results_run triggerWord (seenState seen) earlier
                session Hi) as (I1 & I2 & _).
    cbn [step]. rewrite I1. unfold standby_onresult.
    fold (resultMatches triggerWord ev). rewrite I2, Hw. cbn [orb].
    now destruct (resultMatches triggerWord ev && negb _).
  - destruct (standby_results_run triggerWord (seenState seen)
                (earlier ++ ev :: later) session Hi) as (_ & _ & I3).
    rewrite I3, Hw. reflexivity.
Qed.

Lemma wake_word_fires_once_witness :
  let trigger := lit "hey assistant" in
  let heard (s : String.string) := mkResults (lit s) [] in
  let session :=
    fst (startStandby (render (initial true)) trigger (initial true)) in
  snd (run (results [heard "so"; heard "HEY Assistant"; heard "hey assistant"])
           session)
  = [Activation]
  /\ snd (step (RecognitionResult (heard "hey assistant"))
               (fst (run (results [heard "so"; heard "HEY Assistant"])
                         session)))
     = [].
Proof.
  intros trigger heard session.
  pose proof (wake_word_fires_once (render (initial true)) trigger
                (initial true) [heard "so"; heard "HEY Assistant"]
                (heard "hey assistant") []
                eq_refl ltac:(discriminate) ltac:(discriminate))
    as (_ & _ & Hstep & Hrun).
  split; [exact Hrun | exact Hstep].
Defined.

(** C5 as stated fails: the segment is trimmed before the test, so a
    result whose lowercased segment contains the trigger phrase only with
    its outer white space does not activate. *)
Lemma wake_word_counterexample :
  let trigger := lit "hey " in
  let ev := mkResults (lit "Hey ") [] in
  let session :=
    fst (startStandby (render (initial true)) trigger (initial true)) in
  includes (toLowerCase (lastResult ev)) (toLowerCase trigger) = true
  /\ snd (step (RecognitionResult ev) session) = [].
Proof. split; reflexivity. Qed.

(* --------------------------------------------------------------------- *)
(** ** The permission error *)

Ltac crunch_hook :=
  simpl;
  repeat match goal with
         | |- context [if ?b then _ else _] => destruct b
         | |- context [match ?x with _ => _ end] => destruct x
         end;
  simpl; auto.

Lemma processSentenceQueue_permission (seen : SpeechState) (h : Hook) :
  permissionError (fst (processSentenceQueue seen h)) = permissionError h.
Proof.
  destruct h as [st pe rr q w]. unfold processSentenceQueue.
  cbn [sentenceQueueRef setSpeechState speechState permissionError
       recognitionRef wakeWordDetectedRef setSentenceQueue].
  crunch_hook.
Qed.

(** No action of the hook takes a recorded permission error away: it
    keeps the cell or writes the message again. *)
Lemma step_permission (a : Action) (h : Hook) :
  permissionError (fst (step a h)) = permissionError h
  \/ permissionError (fst (step a h)) = Some permissionMessage.
Proof.
  destruct a; cbn [step].
  - left. unfold speak. rewrite processSentenceQueue_permission.
    now destruct h.
  - left. destruct h as [st pe [[c i hd]|] q w];
      unfold startStandby, stopCurrentRecognition; crunch_hook.
  - left. destruct h as [st pe [[c i hd]|] q w];
      unfold startListening, stopCurrentRecognition; crunch_hook.
  - left. destruct h as [st pe [[c i hd]|] q w]; reflexivity.
  - destruct h as [st pe [[c i hd]|] q w]; cbn [installed recognitionRef];
      [|now left].
    cbn [handlers]. destruct hd; [now left| |];
      unfold standby_onresult, listening_onresult; crunch_hook.
  - destruct h as [st pe [[c i hd]|] q w]; cbn [installed recognitionRef];
      [|now left].
    cbn [handlers]. destruct hd; [now left| |];
      unfold standby_onend, listening_onend; crunch_hook.
  - destruct h as [st pe [[c i hd]|] q w]; cbn [installed recognitionRef];
      [|now left].
    cbn [handlers]. destruct hd; [now left| |];
      unfold standby_onerror, listening_onerror, stopCurrentRecognition;
      cbn [recognitionRef]; crunch_hook.
  - left. unfold utterance_onend.
    destruct (0 <? length (sentenceQueueRef h)).
    + apply processSentenceQueue_permission.
    + now destruct h.
  - left. unfold utterance_onerror.
    pose proof (processSentenceQueue_permission seen (setSpeechState idle h))
      as H.
    destruct (processSentenceQueue seen (setSpeechState idle h)).
    simpl in *. rewrite H. now destruct h.
Qed.

Lemma run_permission (acts : list Action) :
  forall h,
    permissionError h = Some permissionMessage ->
    permissionError (fst (run acts h)) = Some permissionMessage.
Proof.
  induction acts as [|a acts IH]; intros h Hh; [exact Hh|].
  cbn [run].
  pose proof (step_permission a h) as Hs.
  destruct (step a h) as [h1 es1]. simpl in Hs.
  assert (H1 : permissionError h1 = Some permissionMessage)
    by (destruct Hs as [Hs|Hs]; congruence).
  specialize (IH h1 H1).
  destruct (run acts h1) as [h2 es2]. exact IH.
Qed.

Lemma not_allowed_records (h : Hook) :
  installed h <> Detached ->
  permissionError (fst (step (RecognitionError (lit "not-allowed")) h))
  = Some permissionMessage.
Proof.
  intros Hi. cbn [step]. destruct (installed h) eqn:E; [congruence| |].
  - unfold standby_onerror, stopCurrentRecognition.
    replace (str_eqb (lit "not-allowed") (lit "not-allowed")) with true
      by reflexivity.
    destruct h as [st pe [r|] q w]; reflexivity.
  - unfold listening_onerror.
    replace (str_eqb (lit "not-allowed") (lit "not-allowed")) with true
      by reflexivity.
    reflexivity.
Qed.

(** C6.  After a 'not-allowed' recognition error has been handled, the
    permission error is recorded, and whatever happens to the hook
    afterwards (calls of [speak], [startStandby], [startListening] and
    [stop], recognition and playback events) it stays recorded: nothing
    clears it.  In every such later state a call of [startStandby] or of
    [startListening] through the callbacks of the current render changes
    nothing and starts nothing. *)
Theorem permission_error_is_sticky (h : Hook) (acts : list Action)
  (triggerWord : jsstring) :
  installed h <> Detached ->
  let recorded := fst (step (RecognitionError (lit "not-allowed")) h) in
  let later := fst (run acts recorded) in
  permissionError recorded = Some permissionMessage
  /\ permissionError later = Some permissionMessage
  /\ startStandby (render later) triggerWord later = (later, [])
  /\ startListening (render later) later = (later, []).
Proof.
  intros Hi recorded later.
  pose proof (not_allowed_records h Hi) as Hrec. fold recorded in Hrec.
  pose proof (run_permission acts recorded Hrec) as Hlater.
  fold later in Hlater.
  repeat split; try assumption.
  - unfold startStandby, render. cbn [seenPermission].
    now rewrite Hlater.
  - unfold startListening, render. cbn [seenPermission].
    now rewrite Hlater.
Qed.

Lemma permission_error_is_sticky_witness :
  let h := fst (startListening (render (initial true)) (initial true)) in
  let recorded := fst (step (RecognitionError (lit "not-allowed")) h) in
  let later :=
    fst (run [CallStop; CallSpeak idle (lit "Hello."); UtteranceEnd idle;
              RecognitionEnd]
             recorded) in
  permissionError later = Some permissionMessage
  /\ startStandby (render later) (lit "hey assistant") later = (later, [])
  /\ startListening (render later) later = (later, []).
Proof.
  intros h recorded later.
  pose proof (permission_error_is_sticky h
                [CallStop; CallSpeak idle (lit "Hello."); UtteranceEnd idle;
                 RecognitionEnd]
                (lit "hey assistant") ltac:(discriminate))
    as (_ & H2 & H3 & H4).
  repeat split; assumption.
Defined.

End SpeechFacts.

(* ===================================================================== *)
(** * The inference gateway: structured extraction *)
(* ===================================================================== *)
Module ExtractFacts.
Import JS JSFacts Ollama.

(** [c] does not occur in [s]. *)
Definition absent (c : ascii) (s : jsstring) : bool :=
  forallb (fun x => negb (chr_eqb x c)) s.

Lemma indexOfFrom_absent (c : ascii) (s : jsstring) :
  forall i, absent c s = true -> indexOfFrom c s i = (-1)%Z.
Proof.
  induction s as [|x s IH]; intros i H; [reflexivity|].
  simpl in *. apply andb_true_iff in H. destruct H as [Hx Hs].
  destruct (chr_eqb x c); [discriminate|]. now apply IH.
Qed.

Lemma indexOfFrom_app (c : ascii) (pre r : jsstring) :
  forall i, absent c pre = true ->
    indexOfFrom c (pre ++ r) i
    = indexOfFrom c r (i + Z.of_nat (length pre))%Z.
Proof.
  induction pre as [|x pre IH]; intros i H.
  - simpl. f_equal. lia.
  - simpl in *. apply andb_true_iff in H. destruct H as [Hx Hs].
    destruct (chr_eqb x c); [discriminate|].
    rewrite IH by assumption. f_equal. lia.
Qed.

Lemma indexOfFrom_range (c : ascii) (s : jsstring) :
  forall i, (0 <= i)%Z ->
    indexOfFrom c s i = (-1)%Z \/ (i <= indexOfFrom c s i)%Z.
Proof.
  induction s as [|x s IH]; intros i Hi; [now left|].
  simpl. destruct (chr_eqb x c); [right; lia|].
  destruct (IH (i + 1)%Z ltac:(lia)) as [H|H]; [now left | right; lia].
Qed.

Lemma lastIndexOfFrom_app (c : ascii) (a b : jsstring) :
  forall i found,
    lastIndexOfFrom c (a ++ b) i found
    = lastIndexOfFrom c b (i + Z.of_nat (length a))%Z
                      (lastIndexOfFrom c a i found).
Proof.
  induction a as [|x a IH]; intros i found.
  - simpl. f_equal. lia.
  - cbn [app lastIndexOfFrom length]. rewrite IH. f_equal. lia.
Qed.

Lemma lastIndexOfFrom_absent (c : ascii) (s : jsstring) :
  forall i found, absent c s = true -> lastIndexOfFrom c s i found = found.
Proof.
  induction s as [|x s IH]; intros i found H; [reflexivity|].
  simpl in *. apply andb_true_iff in H. destruct H as [Hx Hs].
  destruct (chr_eqb x c); [discriminate|]. now apply IH.
Qed.

Lemma lastIndexOfFrom_bound (c : ascii) (s : jsstring) :
  forall i found, (found < i)%Z ->
    (lastIndexOfFrom c s i found < i + Z.of_nat (length s))%Z.
Proof.
  induction s as [|x s IH]; intros i found H.
  - simpl. lia.
  - cbn [lastIndexOfFrom length].
    specialize (IH (i + 1)%Z (if chr_eqb x c then i else found)).
    destruct (chr_eqb x c); lia.
Qed.

(** The span of [mid] inside [pre ++ mid ++ post]. *)
Lemma substring_span (pre mid post : jsstring) :
  substring (pre ++ mid ++ post) (Z.of_nat (length pre))
            (Z.of_nat (length pre) + Z.of_nat (length mid))
  = mid.
Proof.
  unfold substring. rewrite !length_app.
  set (n := length pre). set (k := length mid). set (j := length post).
  replace (Z.min (Z.max (Z.of_nat n) 0) (Z.of_nat (n + (k + j))))
    with (Z.of_nat n) by lia.
  replace (Z.min (Z.max (Z.of_nat n + Z.of_nat k) 0)
                 (Z.of_nat (n + (k + j))))
    with (Z.of_nat (n + k)) by lia.
  replace (Z.min (Z.of_nat n) (Z.of_nat (n + k))) with (Z.of_nat n) by lia.
  replace (Z.max (Z.of_nat n) (Z.of_nat (n + k)))
    with (Z.of_nat (n + k)) by lia.
  replace (Z.to_nat (Z.of_nat (n + k) - Z.of_nat n)) with k by lia.
  rewrite Nat2Z.id. subst n k.
  rewrite skipn_app, skipn_all, Nat.sub_diag. simpl.
  rewrite firstn_app, firstn_all, Nat.sub_diag. simpl.
  now rewrite app_nil_r.
Qed.

Lemma gtb_true (a b : Z) : (a < b)%Z -> (b >? a)%Z = true.
Proof. intros H. rewrite Z.gtb_ltb. now apply Z.ltb_lt. Qed.

Lemma gtb_false (a b : Z) : (b <= a)%Z -> (b >? a)%Z = false.
Proof. intros H. rewrite Z.gtb_ltb. now apply Z.ltb_ge. Qed.

Definition notOpening (c : ascii) : bool := negb (isOpening c).

Definition notCloser (opening c : ascii) : bool :=
  negb (chr_eqb c (closerOf opening)).

Lemma notOpening_absent (s : jsstring) :
  forallb notOpening s = true ->
  absent "{"%char s = true /\ absent "["%char s = true.
Proof.
  unfold absent. rewrite !forallb_forall. intros H.
  split; intros x Hx; specialize (H x Hx);
    unfold notOpening, isOpening in H;
    destruct (chr_eqb x "{"%char), (chr_eqb x "["%char);
    simpl in *; congruence.
Qed.

Lemma isOpening_cases (c : ascii) :
  isOpening c = true -> c = "{"%char \/ c = "["%char.
Proof.
  unfold isOpening. intros H. apply orb_true_iff in H.
  destruct H as [H|H]; apply chr_eqb_eq in H; auto.
Qed.

(** The index arithmetic of [extractJson] on a text cut at its first
    opening bracket. *)
Lemma extract_indices (opening other : ascii) (pre behind : jsstring) :
  absent opening pre = true ->
  absent other pre = true ->
  chr_eqb opening other = false ->
  let text := pre ++ opening :: behind in
  let n := Z.of_nat (length pre) in
  indexOf text opening = n
  /\ (indexOf text other = (-1)%Z \/ (n < indexOf text other)%Z).
Proof.
  intros Ho Hd Hne text n. subst text n. unfold indexOf.
  set (n := Z.of_nat (length pre)).
  rewrite !indexOfFrom_app by assumption. fold n. cbn [indexOfFrom].
  rewrite chr_eqb_refl, Hne. split; [lia|].
  destruct (indexOfFrom_range other behind (0 + n + 1)%Z ltac:(lia));
    [now left | right; lia].
Qed.

Lemma extract_last_absent (opening closer : ascii) (pre behind : jsstring) :
  chr_eqb opening closer = false ->
  absent closer behind = true ->
  (lastIndexOf (pre ++ opening :: behind) closer
   < Z.of_nat (length pre))%Z.
Proof.
  intros Hne Hb. unfold lastIndexOf.
  rewrite lastIndexOfFrom_app. cbn [lastIndexOfFrom]. rewrite Hne.
  rewrite lastIndexOfFrom_absent by assumption.
  pose proof (lastIndexOfFrom_bound closer pre 0 (-1) ltac:(lia)). lia.
Qed.

Lemma extract_last_present (opening closer : ascii)
  (pre mid tl : jsstring) :
  absent closer tl = true ->
  lastIndexOf (pre ++ opening :: (mid ++ [closer]) ++ tl) closer
  = (Z.of_nat (length pre) + 1 + Z.of_nat (length mid))%Z.
Proof.
  intros Ht. unfold lastIndexOf.
  rewrite lastIndexOfFrom_app. cbn [lastIndexOfFrom].
  rewrite <- app_assoc, lastIndexOfFrom_app. cbn [app lastIndexOfFrom].
  rewrite chr_eqb_refl, lastIndexOfFrom_absent by assumption. lia.
Qed.

(** [extractJson] picks the span the spec describes, in the trimmed
    text. *)
Lemma extractJson_trimmed (response : jsstring) :
  extractJson response = spec_extract (trim response).
Proof.
  unfold extractJson. cbv zeta. generalize (trim response) as text.
  intros text. unfold spec_extract. fold notOpening.
  pose proof (takeWhile_dropWhile notOpening text) as Hsplit.
  pose proof (takeWhile_forallb notOpening text) as Hpre.
  apply notOpening_absent in Hpre. revert Hsplit Hpre.
  generalize (takeWhile notOpening text) as pre.
  intros pre Hsplit [Hbrace Hbracket].
  destruct (dropWhile notOpening text) as [|opening behind] eqn:Hafter.
  - (* no opening bracket at all *)
    rewrite app_nil_r in Hsplit. subst text.
    unfold indexOf. rewrite !indexOfFrom_absent by assumption.
    reflexivity.
  - pose proof (dropWhile_head _ _ _ _ Hafter) as Hopen.
    unfold notOpening in Hopen. apply negb_false_iff in Hopen.
    rewrite <- Hsplit. clear Hsplit Hafter text.
    fold (notCloser opening).
    destruct (dropEndWhile_split (notCloser opening) behind)
      as (tl & Hbehind & Htl).
    assert (Htl' : absent (closerOf opening) tl = true) by exact Htl.
    pose proof (dropEndWhile_last (notCloser opening) behind) as Hkeep.
    set (n := Z.of_nat (length pre)).
    destruct (isOpening_cases _ Hopen) as [-> | ->].
    + (* object mode *)
      destruct (extract_indices "{"%char "["%char pre behind Hbrace
                  Hbracket eq_refl) as [E1 E2].
      fold n in E1, E2. rewrite E1.
      replace (n =? -1)%Z with false by lia. cbn [andb negb].
      replace ((n <? indexOf (pre ++ "{"%char :: behind) "["%char)
               || (indexOf (pre ++ "{"%char :: behind) "["%char =? -1))%Z
        with true by (destruct E2 as [E2|E2]; [rewrite E2|]; lia).
      change (closerOf "{"%char) with "}"%char in *.
      destruct Hkeep as [Hnil | (mid & x & Hkeep & Hx)].
      * rewrite Hnil in *. simpl in Hbehind. subst tl.
        pose proof (extract_last_absent "{"%char "}"%char pre behind
                      eq_refl Htl') as Hlt.
        fold n in Hlt.
        rewrite gtb_false by lia. reflexivity.
      * unfold notCloser in Hx. apply negb_false_iff, chr_eqb_eq in Hx.
        change (closerOf "{"%char) with "}"%char in Hx. subst x.
        rewrite Hkeep in Hbehind |- *. clear Hkeep. subst behind.
        rewrite (extract_last_present "{"%char "}"%char pre mid tl Htl').
        fold n. rewrite gtb_true by lia.
        destruct (mid ++ ["}"%char]) as [|y ys] eqn:Hm;
          [now destruct mid|]. rewrite <- Hm.
        f_equal.
        change (pre ++ "{"%char :: (mid ++ ["}"%char]) ++ tl)
          with (pre ++ ("{"%char :: mid ++ ["}"%char]) ++ tl).
        replace (n + 1 + Z.of_nat (length mid) + 1)%Z
          with (Z.of_nat (length pre)
                + Z.of_nat (length ("{"%char :: mid ++ ["}"%char])))%Z
          by (cbn [length]; rewrite length_app; cbn [length]; lia).
        apply substring_span.
    + (* array mode *)
      destruct (extract_indices "["%char "{"%char pre behind Hbracket
                  Hbrace eq_refl) as [E1 E2].
      fold n in E1, E2. rewrite E1.
      replace (n =? -1)%Z with false by lia.
      rewrite andb_false_r. cbn [negb].
      replace (negb (indexOf (pre ++ "["%char :: behind) "{"%char =? -1)
               && ((indexOf (pre ++ "["%char :: behind) "{"%char <? n)
                   || false))%Z
        with false by (destruct E2 as [E2|E2]; [rewrite E2; reflexivity|];
                       rewrite orb_false_r;
                       replace (_ <? n)%Z with false by lia;
                       now rewrite andb_false_r).
      change (closerOf "["%char) with "]"%char in *.
      destruct Hkeep as [Hnil | (mid & x & Hkeep & Hx)].
      * rewrite Hnil in *. simpl in Hbehind. subst tl.
        pose proof (extract_last_absent "["%char "]"%char pre behind
                      eq_refl Htl') as Hlt.
        fold n in Hlt.
        rewrite gtb_false by lia. reflexivity.
      * unfold notCloser in Hx. apply negb_false_iff, chr_eqb_eq in Hx.
        change (closerOf "["%char) with "]"%char in Hx. subst x.
        rewrite Hkeep in Hbehind |- *. clear Hkeep. subst behind.
        rewrite (extract_last_present "["%char "]"%char pre mid tl Htl').
        fold n. rewrite gtb_true by lia.
        destruct (mid ++ ["]"%char]) as [|y ys] eqn:Hm;
          [now destruct mid|]. rewrite <- Hm.
        f_equal.
        change (pre ++ "["%char :: (mid ++ ["]"%char]) ++ tl)
          with (pre ++ ("["%char :: mid ++ ["]"%char]) ++ tl).
        replace (n + 1 + Z.of_nat (length mid) + 1)%Z
          with (Z.of_nat (length pre)
                + Z.of_nat (length ("["%char :: mid ++ ["]"%char])))%Z
          by (cbn [length]; rewrite length_app; cbn [length]; lia).
        apply substring_span.
Qed.

Lemma whiteSpace_notOpening (c : ascii) :
  isWhiteSpace c = true -> notOpening c = true.
Proof.
  intros H. unfold notOpening, isOpening.
  rewrite !(isWhiteSpace_not c _ H); [reflexivity| |];
    vm_compute; intuition discriminate.
Qed.

Lemma whiteSpace_notCloser (opening c : ascii) :
  isWhiteSpace c = true -> notCloser opening c = true.
Proof.
  intros H. unfold notCloser, closerOf.
  destruct (chr_eqb opening "{"%char);
    rewrite (isWhiteSpace_not c _ H); try reflexivity;
    vm_compute; intuition discriminate.
Qed.

(** White space at the end of the text is outside every span. *)
Lemma spec_extract_trailing (s tl : jsstring) :
  forallb isWhiteSpace tl = true ->
  spec_extract (s ++ tl) = spec_extract s.
Proof.
  intros Hws. unfold spec_extract. fold notOpening.
  destruct (dropWhile notOpening s) as [|opening behind] eqn:E.
  - apply dropWhile_nil_all in E.
    rewrite (dropWhile_app_all _ _ _ E), dropWhile_all; [reflexivity|].
    rewrite forallb_forall in *. intros x Hx.
    apply whiteSpace_notOpening. now apply Hws.
  - rewrite dropWhile_app_stop by (rewrite E; discriminate).
    rewrite E. cbn [app]. fold (notCloser opening).
    rewrite dropEndWhile_app_all; [reflexivity|].
    rewrite forallb_forall in *. intros x Hx.
    apply whiteSpace_notCloser. now apply Hws.
Qed.

(** The span the spec describes is the same before and after [trim]. *)
Lemma spec_extract_trim (s : jsstring) :
  spec_extract (trim s) = spec_extract s.
Proof.
  unfold trim.
  destruct (dropEndWhile_split isWhiteSpace (dropWhile isWhiteSpace s))
    as (tl & Hsplit & Hws).
  rewrite <- (spec_extract_trailing _ tl Hws), <- Hsplit.
  unfold spec_extract. fold notOpening.
  rewrite (dropWhile_weaker isWhiteSpace notOpening);
    [reflexivity | apply whiteSpace_notOpening].
Qed.

Lemma spec_extract_truthy (s span : jsstring) :
  spec_extract s = Some span -> truthy_str span = true.
Proof.
  unfold spec_extract.
  destruct (dropWhile _ s) as [|o b]; [discriminate|].
  destruct (dropEndWhile _ b); [discriminate|].
  now intros [= <-].
Qed.

(** The double quote, which the literals of this file cannot hold. *)
Definition dq : jsstring := ["034"%char].

(** ['Here: {"a":1,"b":[2,3]} thanks'] and the span in it. *)
Definition exampleSpan : jsstring :=
  lit "{" ++ dq ++ lit "a" ++ dq ++ lit ":1," ++ dq ++ lit "b" ++ dq
      ++ lit ":[2,3]}".

Definition exampleResponse : jsstring :=
  lit "Here: " ++ exampleSpan ++ lit " thanks".

(** C2.  [extractJson] returns the span the spec describes: from the
    opening bracket that occurs first in the text, which decides between
    object and array, to the last occurrence of the complementary closing
    bracket behind it; there is no span when the text has no opening
    bracket or no such closing bracket behind the first one.  [generateJson]
    throws its extraction error exactly when there is no span, its parse
    error exactly when [JSON.parse] rejects the span, and returns the
    parsed value otherwise; the two errors differ.  The three examples of
    the spec come out as it says. *)
Theorem structured_extraction (number : Type)
  (parse : jsstring -> Error + JsValue number) (response : jsstring) :
  extractJson response = spec_extract response
  /\ generateJson parse (inr response)
     = match spec_extract response with
       | None => inl (extractionError response)
       | Some span =>
           match parse span with
           | inr v => inr v
           | inl _ => inl (parseError response)
           end
       end
  /\ extractionError response <> parseError response
  /\ extractJson exampleResponse = Some exampleSpan
  /\ extractJson (lit "no brackets at all") = None
  /\ extractJson (lit "[1,2} broken") = None.
Proof.
  assert (E : extractJson response = spec_extract response)
    by (rewrite extractJson_trimmed; apply spec_extract_trim).
  split; [exact E|].
  split.
  - unfold generateJson. rewrite E.
    destruct (spec_extract response) as [span|] eqn:Es; [|reflexivity].
    now rewrite (spec_extract_truthy _ _ Es).
  - split; [discriminate|]. repeat split; reflexivity.
Qed.

End ExtractFacts.

(* ===================================================================== *)
(** * The inference gateway: streaming *)
(* ===================================================================== *)
Module StreamFacts.
Import JS JSFacts Ollama.

(** ** Newline-delimited records *)

(** A text cut at its line feeds: the lines that a line feed ends, and
    what follows the last line feed. *)
Fixpoint cut (s : jsstring) : list jsstring * jsstring :=
  match s with
  | [] => ([], [])
  | c :: s' =>
      let (ls, r) := cut s' in
      if chr_eqb c LF then ([] :: ls, r)
      else match ls with
           | [] => ([], c :: r)
           | h :: t => ((c :: h) :: t, r)
           end
  end.

Definition records (s : jsstring) : list jsstring := fst (cut s).

Definition remainder (s : jsstring) : jsstring := snd (cut s).

Definition noLF (s : jsstring) : bool :=
  forallb (fun c => negb (chr_eqb c LF)) s.

Lemma split_cut (s : jsstring) :
  split LF s = records s ++ [remainder s].
Proof.
  unfold records, remainder.
  induction s as [|c s IH]; [reflexivity|].
  cbn [split cut]. rewrite IH. destruct (cut s) as [ls r].
  destruct (chr_eqb c LF); [reflexivity|].
  destruct ls; reflexivity.
Qed.

Lemma pop_snoc {A : Type} (l : list A) (x : A) :
  pop (l ++ [x]) = (l, Some x).
Proof.
  unfold pop. rewrite rev_app_distr. simpl. now rewrite rev_involutive.
Qed.

Lemma nextBuffer_some (r : jsstring) : nextBuffer (Some r) = r.
Proof. now destruct r. Qed.

(** Cutting a text that arrives in two pieces. *)
Lemma cut_app (a b : jsstring) :
  cut (a ++ b)
  = (records a ++ records (remainder a ++ b),
     remainder (remainder a ++ b)).
Proof.
  unfold records, remainder.
  induction a as [|c a IH].
  - simpl. now destruct (cut b).
  - cbn [app cut]. rewrite IH. destruct (cut a) as [la ra].
    cbn [fst snd].
    destruct (chr_eqb c LF) eqn:Ec; [reflexivity|].
    destruct la as [|h t]; cbn [fst snd app].
    + cbn [cut]. rewrite Ec. destruct (cut (ra ++ b)) as [lb rb].
      now destruct lb.
    + reflexivity.
Qed.

Lemma records_app (a b : jsstring) :
  records (a ++ b) = records a ++ records (remainder a ++ b).
Proof. unfold records at 1. now rewrite cut_app. Qed.

Lemma remainder_app (a b : jsstring) :
  remainder (a ++ b) = remainder (remainder a ++ b).
Proof. unfold remainder at 1. now rewrite cut_app. Qed.

Lemma cut_noLF (t : jsstring) : noLF t = true -> cut t = ([], t).
Proof.
  induction t as [|c t IH]; intros H; [reflexivity|].
  simpl in H. apply andb_true_iff in H. destruct H as [Hc Ht].
  cbn [cut]. rewrite (IH Ht). apply negb_true_iff in Hc. now rewrite Hc.
Qed.

Lemma cut_shape (s : jsstring) :
  noLF (remainder s) = true
  /\ forallb noLF (records s) = true
  /\ concat (map (fun l => l ++ [LF]) (records s)) ++ remainder s = s.
Proof.
  unfold records, remainder.
  induction s as [|c s (IH1 & IH2 & IH3)]; [now simpl|].
  cbn [cut]. destruct (cut s) as [ls r]. cbn [fst snd] in *.
  destruct (chr_eqb c LF) eqn:Ec.
  - apply chr_eqb_eq in Ec. subst c. cbn [fst snd map concat forallb app].
    rewrite IH3. auto.
  - destruct ls as [|h t]; cbn [fst snd map concat forallb app] in *.
    + unfold noLF at 1. cbn [forallb]. rewrite Ec. cbn [negb andb].
      fold (noLF r). subst s. auto.
    + unfold noLF at 2. cbn [forallb]. rewrite Ec. cbn [negb andb].
      fold (noLF h). rewrite IH3. auto.
Qed.

Lemma cut_line (r : jsstring) :
  noLF r = true -> cut (r ++ [LF]) = ([r], []).
Proof.
  induction r as [|c r IH]; intros H; [reflexivity|].
  simpl in H. apply andb_true_iff in H. destruct H as [Hc Hr].
  cbn [app cut]. rewrite (IH Hr).
  apply negb_true_iff in Hc. now rewrite Hc.
Qed.

Lemma cut_terminated (p : jsstring) :
  cut (p ++ [LF]) = (records p ++ [remainder p], []).
Proof.
  rewrite cut_app. unfold records at 2. unfold remainder at 2.
  destruct (cut_shape p) as (H & _ & _).
  now rewrite (cut_line _ H).
Qed.

(** A text that is empty or ends in a line feed, followed by a piece
    without line feed: the piece is the remainder and adds no record. *)
Lemma cut_unterminated (pre tl : jsstring) :
  pre = [] \/ (exists p, pre = p ++ [LF]) ->
  noLF tl = true ->
  cut (pre ++ tl) = (records pre, tl) /\ remainder pre = [].
Proof.
  intros Hpre Htl. rewrite cut_app.
  assert (Hr : remainder pre = []).
  { destruct Hpre as [-> | (p & ->)]; [reflexivity|].
    unfold remainder. now rewrite cut_terminated. }
  rewrite Hr. cbn [app]. unfold records at 2. unfold remainder.
  rewrite (cut_noLF _ Htl). cbn [fst snd]. now rewrite app_nil_r.
Qed.

(** ** The read loop *)

Section Stream.

Context {number : Type}.
Variable numberTruthy : number -> bool.
Variable parse : jsstring -> Error + JsValue number.

(** The message-content field of a record, [undefined] when the record
    or its [message] is no object or the field is absent. *)
Definition messageContent (v : JsValue number) : JsValue number :=
  match v with
  | JObject fields =>
      match lookup (lit "message") fields with
      | JObject inner => lookup (lit "content") inner
      | _ => JUndefined
      end
  | _ => JUndefined
  end.

Definition isNullish (v : JsValue number) : bool :=
  match v with
  | JUndefined | JNull => true
  | _ => false
  end.

(** The chunks one line gives rise to: the message-content field of the
    record on it, when the line is not blank, parses, and the field is
    truthy (for a string: not empty). *)
Definition recordChunks (line : jsstring) : list (JsValue number) :=
  if str_eqb (trim line) [] then []
  else match parse line with
       | inl _ => []
       | inr v =>
           if truthy numberTruthy (messageContent v)
           then [messageContent v] else []
       end.

(** Everything one line gives rise to: nothing when blank; otherwise the
    call of [JSON.parse], then a log entry when that (or reading
    [message] off [null]) throws, else the chunk if there is one. *)
Definition recordActions (line : jsstring) : list (Action number) :=
  if str_eqb (trim line) [] then []
  else JsonParse line
       :: match parse line with
          | inl _ => [ConsoleError]
          | inr v =>
              if isNullish v then [ConsoleError]
              else map OnChunk (recordChunks line)
          end.

Definition chunkOf (a : Action number) : list (JsValue number) :=
  match a with
  | OnChunk c => [c]
  | _ => []
  end.

(** The arguments of the [onChunk] calls of a trace, in order. *)
Definition chunksIn (tr : list (Action number)) : list (JsValue number) :=
  flat_map chunkOf tr.

Definition errorOf (a : Action number) : list Error :=
  match a with
  | OnError e => [e]
  | _ => []
  end.

(** The arguments of the [onError] calls of a trace, in order. *)
Definition errorsIn (tr : list (Action number)) : list Error :=
  flat_map errorOf tr.

Definition isClose (a : Action number) : bool :=
  match a with
  | OnClose => true
  | _ => false
  end.

(** The number of [onClose] calls of a trace. *)
Definition closes (tr : list (Action number)) : nat :=
  length (filter isClose tr).

Lemma processLine_spec (line : jsstring) :
  processLine numberTruthy parse line = (recordActions line, inr tt).
Proof.
  unfold processLine, recordActions, recordChunks.
  destruct (str_eqb (trim line) []); [reflexivity|].
  destruct (parse line) as [e|v]; [reflexivity|].
  destruct v as [| |b|n|s|items|fields]; try reflexivity.
  cbn [emit lift bind tryCatch getProp isNullish messageContent].
  destruct (lookup (lit "message") fields) as [| |b|n|s|items|inner];
    cbn [truthy getProp lift bind ret app]; try reflexivity.
  - now destruct b.
  - now destruct (numberTruthy n).
  - now destruct (truthy_str s).
  - destruct (truthy numberTruthy (lookup (lit "content") inner));
      reflexivity.
Qed.

Lemma forEachLine_spec (lines : list jsstring) :
  forEachLine numberTruthy parse lines
  = (flat_map recordActions lines, inr tt).
Proof.
  induction lines as [|line lines IH]; [reflexivity|].
  cbn [forEachLine flat_map]. rewrite processLine_spec, IH. reflexivity.
Qed.

Lemma readLoop_spec (reads : list jsstring) (failure : option Error) :
  forall buffer,
    noLF buffer = true ->
    readLoop numberTruthy parse reads failure buffer
    = (flat_map recordActions (records (buffer ++ concat reads)),
       match failure with
       | Some e => inl e
       | None => inr (remainder (buffer ++ concat reads))
       end).
Proof.
  induction reads as [|value reads IH]; intros buffer Hb.
  - cbn [readLoop concat]. rewrite app_nil_r.
    unfold records, remainder. rewrite (cut_noLF _ Hb).
    now destruct failure.
  - cbn [readLoop concat]. rewrite split_cut, pop_snoc, nextBuffer_some.
    rewrite forEachLine_spec. cbn [bind].
    destruct (cut_shape (buffer ++ value)) as (Hr & _ & _).
    rewrite (IH _ Hr).
    rewrite (app_assoc buffer value).
    rewrite (records_app (buffer ++ value)).
    rewrite (remainder_app (buffer ++ value)).
    rewrite flat_map_app. reflexivity.
Qed.

(** ** The whole call *)

(** The records of the response body that the call gets to read: the
    lines of the whole body that a line feed ends. *)
Definition streamRecords (fetched : Error + Response) : list jsstring :=
  match fetched with
  | inl _ => []
  | inr r =>
      match ok r, body r with
      | true, Some b => records (concat (decoded b))
      | _, _ => []
      end
  end.

(** The exit paths that are failures, with the error each surfaces: the
    fetch rejects (network failure, or the abort fired by the timer); the
    response is not ok or has no body; reading the body rejects. *)
Definition streamFailure (fetched : Error + Response) : option Error :=
  match fetched with
  | inl e => Some e
  | inr r =>
      match ok r, body r with
      | true, Some b => failure b
      | _, _ =>
          Some match text r with
               | inl e => e
               | inr errorText => requestFailed r errorText
               end
      end
  end.

Definition failureActions (f : option Error) : list (Action number) :=
  match f with
  | Some e => [ConsoleError; OnError e]
  | None => []
  end.

Lemma generateChatStream_spec (fetched : Error + Response) :
  generateChatStream numberTruthy parse fetched
  = (flat_map recordActions (streamRecords fetched)
       ++ failureActions (streamFailure fetched) ++ [OnClose],
     inr tt).
Proof.
  destruct fetched as [e|[o st stt [[reads fl]|] txt]]; [reflexivity| |].
  - destruct o.
    + unfold generateChatStream.
      cbn [lift bind ok body decoded failure streamRecords streamFailure].
      rewrite (readLoop_spec reads fl [] eq_refl). cbn [app].
      destruct fl as [e|]; cbn [bind tryCatch tryFinally emit ret
                               failureActions app];
        rewrite ?app_nil_r, <- ?app_assoc; reflexivity.
    + unfold generateChatStream. cbn. destruct txt; reflexivity.
  - unfold generateChatStream. cbn. destruct o, txt; reflexivity.
Qed.

Lemma chunksIn_app (a b : list (Action number)) :
  chunksIn (a ++ b) = chunksIn a ++ chunksIn b.
Proof. apply flat_map_app. Qed.

Lemma errorsIn_app (a b : list (Action number)) :
  errorsIn (a ++ b) = errorsIn a ++ errorsIn b.
Proof. apply flat_map_app. Qed.

Lemma closes_app (a b : list (Action number)) :
  closes (a ++ b) = closes a + closes b.
Proof. unfold closes. now rewrite filter_app, length_app. Qed.

Lemma chunksIn_map_OnChunk (cs : list (JsValue number)) :
  chunksIn (map OnChunk cs) = cs.
Proof.
  induction cs as [|c cs IH]; [reflexivity|].
  cbn. f_equal. exact IH.
Qed.

Lemma errorsIn_map_OnChunk (cs : list (JsValue number)) :
  errorsIn (map OnChunk cs) = [].
Proof. induction cs as [|c cs IH]; [reflexivity|exact IH]. Qed.

Lemma closes_map_OnChunk (cs : list (JsValue number)) :
  closes (map OnChunk cs) = 0.
Proof. induction cs as [|c cs IH]; [reflexivity|exact IH]. Qed.

Lemma chunksIn_recordActions (line : jsstring) :
  chunksIn (recordActions line) = recordChunks line.
Proof.
  unfold recordActions, recordChunks.
  destruct (str_eqb (trim line) []); [reflexivity|].
  destruct (parse line) as [e|v]; [reflexivity|].
  destruct (isNullish v) eqn:En.
  - destruct v; try discriminate; reflexivity.
  - apply (chunksIn_map_OnChunk
             (if truthy numberTruthy (messageContent v)
              then [messageContent v] else [])).
Qed.

Lemma errorsIn_recordActions (line : jsstring) :
  errorsIn (recordActions line) = [].
Proof.
  unfold recordActions.
  destruct (str_eqb (trim line) []); [reflexivity|].
  destruct (parse line) as [e|v]; [reflexivity|].
  destruct (isNullish v); [reflexivity|].
  apply (errorsIn_map_OnChunk (recordChunks line)).
Qed.

Lemma closes_recordActions (line : jsstring) :
  closes (recordActions line) = 0.
Proof.
  unfold recordActions.
  destruct (str_eqb (trim line) []); [reflexivity|].
  destruct (parse line) as [e|v]; [reflexivity|].
  destruct (isNullish v); [reflexivity|].
  apply (closes_map_OnChunk (recordChunks line)).
Qed.

Lemma chunksIn_records (lines : list jsstring) :
  chunksIn (flat_map recordActions lines) = flat_map recordChunks lines.
Proof.
  induction lines as [|l lines IH]; [reflexivity|].
  cbn [flat_map]. now rewrite chunksIn_app, chunksIn_recordActions, IH.
Qed.

Lemma errorsIn_records (lines : list jsstring) :
  errorsIn (flat_map recordActions lines) = [].
Proof.
  induction lines as [|l lines IH]; [reflexivity|].
  cbn [flat_map]. now rewrite errorsIn_app, errorsIn_recordActions, IH.
Qed.

Lemma closes_records (lines : list jsstring) :
  closes (flat_map recordActions lines) = 0.
Proof.
  induction lines as [|l lines IH]; [reflexivity|].
  cbn [flat_map]. now rewrite closes_app, closes_recordActions, IH.
Qed.

(** C3.  On every exit path of [generateChatStream] (the stream ends,
    with any number of chunks; the fetch rejects through a network
    failure or the abort of the timer; the response is not ok or has no
    body; reading the body rejects) the call returns normally, and
    [onClose] is the last thing it does and is called exactly once, so
    behind every [onChunk] and behind [onError]; [onError] is called once
    with the error on the failure paths and not at all otherwise. *)
Theorem finalizer_runs_once (fetched : Error + Response) :
  let call := generateChatStream numberTruthy parse fetched in
  snd call = inr tt
  /\ (exists before,
        fst call = before ++ [OnClose] /\ closes before = 0)
  /\ closes (fst call) = 1
  /\ errorsIn (fst call)
     = match streamFailure fetched with
       | Some e => [e]
       | None => []
       end.
Proof.
  intros call. subst call. rewrite generateChatStream_spec. cbn [fst snd].
  assert (Hf : closes (failureActions (streamFailure fetched)) = 0)
    by (destruct (streamFailure fetched); reflexivity).
  split; [reflexivity|]. split; [|split].
  - exists (flat_map recordActions (streamRecords fetched)
            ++ failureActions (streamFailure fetched)).
    split; [now rewrite app_assoc|].
    now rewrite closes_app, closes_records, Hf.
  - now rewrite !closes_app, closes_records, Hf.
  - rewrite !errorsIn_app, errorsIn_records.
    destruct (streamFailure fetched); reflexivity.
Qed.

(** ** What a record is owed, written without the gateway's helpers *)

(** The value of the first binding of [key] among the properties of an
    object, if it has one. *)
Definition fieldOf (key : jsstring)
  (fields : list (jsstring * JsValue number)) : option (JsValue number) :=
  match find (fun kv => if list_eq_dec ascii_dec (fst kv) key
                        then true else false) fields with
  | Some (_, v) => Some v
  | None => None
  end.

(** The message-content field of a record: the [content] of the object
    that is its [message]. *)
Definition contentField (record : JsValue number)
  : option (JsValue number) :=
  match record with
  | JObject fields =>
      match fieldOf (lit "message") fields with
      | Some (JObject inner) => fieldOf (lit "content") inner
      | _ => None
      end
  | _ => None
  end.

(** Non-empty content: a string of positive length.  For the values that
    a record of the backend does not hold there, what JavaScript takes
    for true. *)
Definition nonEmpty (c : JsValue number) : bool :=
  match c with
  | JString s => 0 <? length s
  | JBool b => b
  | JNumber n => numberTruthy n
  | JArray _ | JObject _ => true
  | JUndefined | JNull => false
  end.

Definition blankLine (line : jsstring) : bool := forallb isWhiteSpace line.

(** The chunks owed to one line: the content field of its record, when
    the line is not blank, is valid JSON, and the field is there and not
    empty. *)
Definition deliveredBy (line : jsstring) : list (JsValue number) :=
  if blankLine line then []
  else match parse line with
       | inl _ => []
       | inr record =>
           match contentField record with
           | Some c => if nonEmpty c then [c] else []
           | None => []
           end
       end.

(** Everything owed to one line: nothing when it is blank; else the call
    of [JSON.parse], followed by a log entry when the line is no valid
    JSON (or is the JSON [null], off which [message] cannot be read), and
    by the chunk otherwise, when there is one. *)
Definition doneFor (line : jsstring) : list (Action number) :=
  if blankLine line then []
  else JsonParse line
       :: match parse line with
          | inl _ => [ConsoleError]
          | inr JNull | inr JUndefined => [ConsoleError]
          | inr _ => map OnChunk (deliveredBy line)
          end.

Lemma lookup_fieldOf (key : jsstring)
  (fields : list (jsstring * JsValue number)) :
  lookup key fields
  = match fieldOf key fields with
    | Some v => v
    | None => JUndefined
    end.
Proof.
  unfold fieldOf. induction fields as [|[k v] fields IH]; [reflexivity|].
  cbn [lookup find fst]. unfold str_eqb.
  destruct (list_eq_dec ascii_dec k key); [reflexivity|exact IH].
Qed.

Lemma blank_blankLine (line : jsstring) :
  str_eqb (trim line) [] = blankLine line.
Proof.
  unfold blankLine.
  destruct (forallb isWhiteSpace line) eqn:E.
  - apply str_eqb_eq. now apply trim_all_nil.
  - destruct (str_eqb (trim line) []) eqn:Et; [|reflexivity].
    apply str_eqb_eq, trim_nil_all in Et. congruence.
Qed.

Lemma truthy_nonEmpty (c : JsValue number) :
  truthy numberTruthy c = nonEmpty c.
Proof. destruct c as [| |b|n|s|items|fields]; try reflexivity. now destruct s. Qed.

Lemma messageContent_contentField (v : JsValue number) :
  messageContent v
  = match contentField v with
    | Some c => c
    | None => JUndefined
    end.
Proof.
  destruct v as [| |b|n|s|items|fields]; try reflexivity.
  cbn [messageContent contentField].
  rewrite (lookup_fieldOf (lit "message") fields).
  destruct (fieldOf (lit "message") fields) as [[| |b|n|s|items|inner]|];
    try reflexivity.
  apply lookup_fieldOf.
Qed.

Lemma recordChunks_deliveredBy (line : jsstring) :
  recordChunks line = deliveredBy line.
Proof.
  unfold recordChunks, deliveredBy. rewrite blank_blankLine.
  destruct (blankLine line); [reflexivity|].
  destruct (parse line) as [e|v]; [reflexivity|].
  rewrite messageContent_contentField.
  destruct (contentField v) as [c|]; [|reflexivity].
  now rewrite truthy_nonEmpty.
Qed.

Lemma recordActions_doneFor (line : jsstring) :
  recordActions line = doneFor line.
Proof.
  unfold recordActions, doneFor. rewrite blank_blankLine.
  destruct (blankLine line); [reflexivity|].
  rewrite recordChunks_deliveredBy.
  destruct (parse line) as [e|v]; [reflexivity|].
  now destruct v.
Qed.

Lemma flat_map_pointwise {A B : Type} (f g : A -> list B) (l : list A) :
  (forall x, f x = g x) -> flat_map f l = flat_map g l.
Proof.
  intros H. induction l as [|x l IH]; [reflexivity|].
  cbn [flat_map]. now rewrite H, IH.
Qed.

(** C4 (as amended).  The body of an ok response is consumed as
    newline-delimited records, however the reads cut it.  The records are
    the lines of the body that a line feed ends.  Record by record in the
    order of the body, the call does what [doneFor] says and then goes
    on: [onChunk] is called exactly once for each record whose
    message-content field is there and not empty, with that field, and
    for no other record; a line that is no valid JSON is logged and
    skipped.  What follows the last line feed is no record and gets no
    call. *)
Theorem stream_delivers_terminated_records (status : N)
  (statusText : jsstring) (text : Error + jsstring)
  (reads : list jsstring) (failure : option Error) :
  let stream := concat reads in
  let fetched :=
    inr (mkResponse true status statusText
                    (Some (mkBody reads failure)) text) in
  fst (generateChatStream numberTruthy parse fetched)
  = flat_map doneFor (records stream)
      ++ failureActions failure ++ [OnClose]
  /\ chunksIn (fst (generateChatStream numberTruthy parse fetched))
     = flat_map deliveredBy (records stream)
  /\ concat (map (fun l => l ++ [LF]) (records stream)) ++ remainder stream
     = stream
  /\ forallb noLF (records stream) = true
  /\ noLF (remainder stream) = true.
Proof.
  intros stream fetched.
  destruct (cut_shape stream) as (H1 & H2 & H3).
  assert (Htrace :
    fst (generateChatStream numberTruthy parse fetched)
    = flat_map doneFor (records stream)
        ++ failureActions failure ++ [OnClose]).
  { rewrite generateChatStream_spec. cbn [fst]. subst fetched.
    cbn [streamRecords streamFailure ok body decoded Ollama.failure].
    fold stream.
    now rewrite (flat_map_pointwise _ _ _ recordActions_doneFor). }
  split; [exact Htrace|]. split; [|auto].
  rewrite generateChatStream_spec. cbn [fst].
  rewrite !chunksIn_app, chunksIn_records.
  subst fetched. cbn [streamRecords streamFailure ok body decoded].
  fold stream.
  rewrite (flat_map_pointwise _ _ _ recordChunks_deliveredBy).
  destruct failure; cbn; now rewrite app_nil_r.
Qed.

(** C10.  When the body does not end in a line feed, what follows its
    last line feed is in the line buffer when the stream ends and goes no
    further: the call does exactly what it does on the body without that
    piece, so the piece is never parsed and gives no [onChunk], whatever
    it holds. *)
Theorem unterminated_line_is_dropped (status : N) (statusText : jsstring)
  (text : Error + jsstring) (reads : list jsstring) (pre tl : jsstring) :
  concat reads = pre ++ tl ->
  pre = [] \/ (exists p, pre = p ++ [LF]) ->
  noLF tl = true ->
  readLoop numberTruthy parse reads None []
  = (flat_map recordActions (records pre), inr tl)
  /\ fst (readLoop numberTruthy parse reads None [])
     = fst (readLoop numberTruthy parse [pre] None [])
  /\ generateChatStream numberTruthy parse
       (inr (mkResponse true status statusText
                        (Some (mkBody reads None)) text))
     = (flat_map recordActions (records pre) ++ [OnClose], inr tt).
Proof.
  intros Hbody Hpre Htl.
  destruct (cut_unterminated pre tl Hpre Htl) as [Hcut Hrem].
  assert (R : records (concat reads) = records pre)
    by (unfold records at 1; now rewrite Hbody, Hcut).
  split; [|split].
  - rewrite (readLoop_spec reads None [] eq_refl). cbn [app].
    rewrite R. unfold remainder. now rewrite Hbody, Hcut.
  - rewrite !(readLoop_spec _ None [] eq_refl). cbn [app fst concat].
    now rewrite R, app_nil_r.
  - rewrite generateChatStream_spec.
    cbn [streamRecords streamFailure ok body decoded failure
         failureActions app].
    now rewrite R.
Qed.

End Stream.

(** ** A body whose last record has no line feed *)

Definition recordOf (content : String.string) : jsstring :=
  lit "{" ++ ExtractFacts.dq ++ lit "message" ++ ExtractFacts.dq
      ++ lit ":{" ++ ExtractFacts.dq ++ lit "content" ++ ExtractFacts.dq
      ++ lit ":" ++ ExtractFacts.dq ++ lit content ++ ExtractFacts.dq
      ++ lit "}}".

Definition valueOf (content : String.string) : JsValue unit :=
  JObject [(lit "message", JObject [(lit "content", JString (lit content))])].

(** [JSON.parse] on the two records of the example. *)
Definition parseExample (line : jsstring) : Error + JsValue unit :=
  if str_eqb line (recordOf "Hi") then inr (valueOf "Hi")
  else if str_eqb line (recordOf " there") then inr (valueOf " there")
  else inl (mkError (lit "SyntaxError")).

Lemma unterminated_line_is_dropped_witness :
  let reads := [recordOf "Hi" ++ [LF] ++ lit "{"; tl (recordOf " there")] in
  concat reads = (recordOf "Hi" ++ [LF]) ++ recordOf " there"
  /\ parseExample (recordOf " there") = inr (valueOf " there")
  /\ readLoop (fun _ => true) parseExample reads None []
     = ([JsonParse (recordOf "Hi"); OnChunk (JString (lit "Hi"))],
        inr (recordOf " there")).
Proof.
  intros reads. split; [reflexivity|]. split; [reflexivity|].
  destruct (unterminated_line_is_dropped (fun _ => true) parseExample
              200%N (lit "OK") (inr []) reads
              (recordOf "Hi" ++ [LF]) (recordOf " there")
              eq_refl (or_intror (ex_intro _ (recordOf "Hi") eq_refl))
              eq_refl) as (H & _ & _).
  exact H.
Defined.

(** C4 as stated fails.  In the body of two records of which only the
    first is followed by a line feed, the second is a record with
    non-empty content, yet only the first is delivered. *)
Lemma unterminated_record_counterexample :
  let body := recordOf "Hi" ++ [LF] ++ recordOf " there" in
  let trace :=
    fst (generateChatStream (fun _ => true) parseExample
           (inr (mkResponse true 200 (lit "OK")
                            (Some (mkBody [body] None)) (inr [])))) in
  split LF body = [recordOf "Hi"; recordOf " there"]
  /\ deliveredBy (fun _ => true) parseExample (recordOf " there")
     = [JString (lit " there")]
  /\ chunksIn trace = [JString (lit "Hi")]
  /\ chunksIn trace
     <> flat_map (deliveredBy (fun _ => true) parseExample) (split LF body).
Proof.
  repeat split; try reflexivity.
  vm_compute. discriminate.
Qed.

End StreamFacts.

(* ===================================================================== *)
(** * The conversation orchestrator *)
(* ===================================================================== *)
Module ChatFacts.
Import JS JSFacts Ollama StreamFacts Chat.

(** ** Mode synchronisation *)

(** C7.  The effect that mirrors the hook's state into the mode applies
    two rules and nothing else: with the hook [speaking] the mode becomes
    (or stays) [speaking]; with the hook not [speaking] a mode [speaking]
    goes back to [standby]; every other mode is left as it is.  One run
    of the effect settles the mode, and then the mode is [speaking]
    exactly when the hook is. *)
Theorem mode_follows_speech (speechState : Speech.SpeechState)
  (mode : ChatMode) :
  syncMode speechState mode
  = match speechState with
    | Speech.speaking => speaking
    | _ => match mode with
           | speaking => standby
           | _ => mode
           end
    end
  /\ syncMode speechState (syncMode speechState mode)
     = syncMode speechState mode
  /\ ChatMode_eqb (syncMode speechState mode) speaking
     = Speech.SpeechState_eqb speechState Speech.speaking.
Proof. destruct speechState, mode; repeat split; reflexivity. Qed.

(** ** The callbacks of a streaming call *)

Section Callbacks.

Context {number : Type}.
Variable numberTruthy : number -> bool.
Variable parse : jsstring -> Error + JsValue number.

Definition stringOf (a : Action number) : list jsstring :=
  match a with
  | OnChunk (JString chunk) => [chunk]
  | _ => []
  end.

(** The string chunks of a trace, in order. *)
Definition stringChunks (tr : list (Action number)) : list jsstring :=
  flat_map stringOf tr.

Lemma deliver_app (a b : list (Action number)) :
  forall v,
    deliver (a ++ b) v
    = match deliver a v with
      | Some v' => deliver b v'
      | None => None
      end.
Proof.
  induction a as [|x a IH]; intros v; [reflexivity|].
  cbn [app deliver]. destruct (deliverOne x v); [apply IH|reflexivity].
Qed.

Lemma appendChunk_last (chunk : jsstring) (ms : list ChatMessage)
  (c : jsstring) :
  appendChunk chunk (ms ++ [mkMessage ASSISTANT c])
  = Some (ms ++ [mkMessage ASSISTANT (c ++ chunk)]).
Proof.
  unfold appendChunk. rewrite rev_app_distr. cbn.
  now rewrite rev_involutive.
Qed.

Lemma replaceLast_last (m m' : ChatMessage) (ms : list ChatMessage) :
  replaceLast m (ms ++ [m']) = ms ++ [m].
Proof.
  unfold replaceLast. rewrite rev_app_distr. cbn.
  now rewrite rev_involutive.
Qed.

(** While no error arrives, the chunks pile up in the placeholder and
    are spoken one by one. *)
Lemma deliver_chunks (tr : list (Action number)) :
  forall (ms : list ChatMessage) (c : jsstring) (sp : list jsstring),
    errorsIn tr = [] ->
    deliver tr (mkView (ms ++ [mkMessage ASSISTANT c]) sp)
    = Some (mkView
              (ms ++ [mkMessage ASSISTANT (c ++ concat (stringChunks tr))])
              (sp ++ stringChunks tr)).
Proof.
  induction tr as [|a tr IH]; intros ms c sp He.
  - cbn. now rewrite !app_nil_r.
  - assert (He' : errorsIn tr = []).
    { unfold errorsIn in *. cbn [flat_map] in He.
      now apply app_eq_nil in He. }
    cbn [deliver]. destruct a as [line| |chunk|e|].
    + apply (IH ms c sp He').
    + apply (IH ms c sp He').
    + destruct chunk as [| |b|n|s|items|fields];
        try apply (IH ms c sp He').
      cbn [deliverOne]. unfold onChunk. cbn [messages spoken].
      rewrite appendChunk_last. rewrite (IH _ _ _ He').
      cbn [stringChunks flat_map stringOf concat app].
      fold (stringChunks tr). now rewrite <- !app_assoc.
    + discriminate.
    + apply (IH ms c sp He').
Qed.

Lemma stringChunks_app (a b : list (Action number)) :
  stringChunks (a ++ b) = stringChunks a ++ stringChunks b.
Proof. apply flat_map_app. Qed.

(** C8.  When the streaming call of [handleUserMessage] reports an error,
    the list of messages ends up as the list the function started from,
    the user's message, and one assistant message whose content is the
    error string "Sorry, I encountered an error: " followed by the
    error's message: whatever the chunks had put into the placeholder is
    gone.  [speak] receives the chunks and then that same error string.
    The error callback by itself overwrites the last message and leaves
    all earlier ones alone. *)
Theorem stream_error_replaces_placeholder
  (fetched : Error + Response) (seenMessages : list ChatMessage)
  (userText : jsstring) (v : View) (e : Error) :
  let trace := fst (generateChatStream numberTruthy parse fetched) in
  In (OnError e) trace ->
  handleUserMessage numberTruthy parse fetched seenMessages userText v
  = Some (mkView
            (seenMessages
               ++ [mkMessage USER userText;
                   mkMessage ASSISTANT (errorMessage e)])
            (spoken v ++ stringChunks trace ++ [errorMessage e]))
  /\ errorMessage e = lit "Sorry, I encountered an error: " ++ message e
  /\ (forall earlier placeholder sp,
        onError e (mkView (earlier ++ [placeholder]) sp)
        = mkView (earlier ++ [mkMessage ASSISTANT (errorMessage e)])
                 (sp ++ [errorMessage e])).
Proof.
  intros trace Hin.
  split; [|split; [reflexivity|]].
  - unfold handleUserMessage. fold trace. subst trace.
    rewrite generateChatStream_spec in *. cbn [fst] in *.
    set (body := flat_map (recordActions numberTruthy parse)
                          (streamRecords fetched)) in *.
    assert (Hb : errorsIn body = []) by apply errorsIn_records.
    assert (Hf : streamFailure fetched = Some e).
    { apply in_app_or in Hin. destruct Hin as [Hin|Hin].
      - exfalso. assert (Hx : In e (errorsIn body)).
        { unfold errorsIn. apply in_flat_map.
          exists (OnError e). split; [exact Hin | now left]. }
        rewrite Hb in Hx. exact Hx.
      - destruct (streamFailure fetched) as [e'|]; cbn in Hin.
        + destruct Hin as [Hin|[Hin|[Hin|[]]]]; try discriminate.
          now injection Hin as ->.
        + destruct Hin as [Hin|[]]; discriminate. }
    rewrite Hf. cbn [failureActions].
    rewrite deliver_app. unfold beginTurn.
    change (seenMessages ++ [mkMessage USER userText]
                         ++ [mkMessage ASSISTANT []])
      with (seenMessages ++ [mkMessage USER userText; mkMessage ASSISTANT []]).
    replace (seenMessages
               ++ [mkMessage USER userText; mkMessage ASSISTANT []])
      with ((seenMessages ++ [mkMessage USER userText])
              ++ [mkMessage ASSISTANT []])
      by now rewrite <- app_assoc.
    rewrite (deliver_chunks body _ _ _ Hb).
    cbn [app deliver deliverOne]. unfold onError. cbn [messages spoken].
    rewrite replaceLast_last, <- !app_assoc. cbn [app].
    rewrite stringChunks_app. cbn [stringChunks flat_map stringOf app].
    now rewrite app_nil_r.
  - intros earlier placeholder sp. unfold onError. cbn [messages spoken].
    now rewrite replaceLast_last.
Qed.

End Callbacks.

Lemma stream_error_replaces_placeholder_witness :
  let failed := mkError (lit "Failed to fetch") in
  let history := [mkMessage USER (lit "hi"); mkMessage ASSISTANT (lit "Hello.")] in
  handleUserMessage (fun _ : unit => true) parseExample (inl failed)
                    history (lit "hello") (mkView history [])
  = Some (mkView
            (history
               ++ [mkMessage USER (lit "hello");
                   mkMessage ASSISTANT
                     (lit "Sorry, I encountered an error: Failed to fetch")])
            [lit "Sorry, I encountered an error: Failed to fetch"]).
Proof.
  intros failed history.
  destruct (stream_error_replaces_placeholder (fun _ : unit => true)
              parseExample (inl failed) history (lit "hello")
              (mkView history []) failed
              (or_intror (or_introl eq_refl))) as (H & _ & _).
  exact H.
Defined.

End ChatFacts.

(* ===================================================================== *)
(** * More on [trim] *)
(* ===================================================================== *)
Module TrimFacts.
Import JS JSFacts.

(** No white space at either end. *)
Definition outerClean (t : jsstring) : bool :=
  match t with
  | [] => true
  | c :: _ => negb (isWhiteSpace c) && negb (isWhiteSpace (last t c))
  end.

Lemma dropEndWhile_keeps_head {A : Type} (p : A -> bool) (x : A)
  (l : list A) :
  dropEndWhile p (x :: l) = []
  \/ exists r, dropEndWhile p (x :: l) = x :: r.
Proof.
  destruct (dropEndWhile_split p (x :: l)) as (tl & Hs & _).
  destruct (dropEndWhile p (x :: l)) as [|y r]; [now left|].
  right. exists r. cbn in Hs. now injection Hs as <- _.
Qed.

Lemma last_snoc {A : Type} (m : list A) (x d : A) : last (m ++ [x]) d = x.
Proof.
  induction m as [|y m IH]; [reflexivity|].
  cbn [app last]. destruct (m ++ [x]) eqn:E; [now destruct m|exact IH].
Qed.

Lemma trim_outerClean (s : jsstring) : outerClean (trim s) = true.
Proof.
  unfold trim.
  destruct (dropWhile isWhiteSpace s) as [|x l] eqn:Ed; [reflexivity|].
  pose proof (dropWhile_head _ _ _ _ Ed) as Hx.
  destruct (dropEndWhile_last isWhiteSpace (x :: l))
    as [E | (m & y & E & Hy)]; [now rewrite E|].
  destruct (dropEndWhile_keeps_head isWhiteSpace x l) as [E'|[r E']];
    [rewrite E' in E; now destruct m|].
  rewrite E'. cbn [outerClean]. rewrite Hx. cbn [negb andb].
  rewrite <- E', E, last_snoc. now rewrite Hy.
Qed.

Lemma outerClean_trim (t : jsstring) : outerClean t = true -> trim t = t.
Proof.
  destruct t as [|c t]; [reflexivity|].
  cbn [outerClean]. intros H. apply andb_true_iff in H.
  destruct H as [Hc Hl]. apply negb_true_iff in Hc, Hl.
  unfold trim. cbn [dropWhile]. rewrite Hc.
  unfold dropEndWhile.
  destruct (rev (c :: t)) as [|y r] eqn:Er.
  - apply (f_equal (@rev ascii)) in Er. rewrite rev_involutive in Er.
    discriminate.
  - assert (Hy : y = last (c :: t) c).
    { apply (f_equal (@rev ascii)) in Er. rewrite rev_involutive in Er.
      rewrite Er. cbn [rev]. now rewrite last_snoc. }
    cbn [dropWhile]. rewrite Hy, Hl, <- Hy, <- Er.
    apply rev_involutive.
Qed.

Lemma trim_idempotent (s : jsstring) : trim (trim s) = trim s.
Proof. apply outerClean_trim, trim_outerClean. Qed.


End TrimFacts.

(* ===================================================================== *)
(** * The speech hook: queue, sessions and callbacks *)
(* ===================================================================== *)
Module SpeechExtra.
Import JS JSFacts TrimFacts Speech SpeechFacts.

(** ** Nothing is lost from the sentence queue *)

Definition utteranceOf (e : Effect) : list jsstring :=
  match e with
  | Utter text _ => [text]
  | _ => []
  end.

(** The texts handed to [speechSynthesis.speak], in order. *)
Definition utterances (es : list Effect) : list jsstring :=
  flat_map utteranceOf es.

Definition fragmentsOf (a : Action) : list jsstring :=
  match a with
  | CallSpeak _ text => filter nonBlank (sentencesOf text)
  | _ => []
  end.

(** The fragments that the [speak] calls among [acts] enqueue, in
    order. *)
Definition enqueued (acts : list Action) : list jsstring :=
  flat_map fragmentsOf acts.

Lemma nonBlank_truthy (f : jsstring) :
  nonBlank f = true -> truthy_str f = true.
Proof. destruct f; [discriminate|reflexivity]. Qed.

Lemma processSentenceQueue_conserves (seen : SpeechState) (h : Hook) :
  forallb nonBlank (sentenceQueueRef h) = true ->
  utterances (snd (processSentenceQueue seen h))
    ++ sentenceQueueRef (fst (processSentenceQueue seen h))
  = sentenceQueueRef h.
Proof.
  intros Hq. unfold processSentenceQueue.
  destruct (SpeechState_eqb seen speaking || _); [reflexivity|].
  destruct h as [st pe rr q w]. cbn in *.
  destruct q as [|x q]; [reflexivity|].
  cbn in Hq. apply andb_true_iff in Hq. destruct Hq as [Hx _].
  now rewrite (nonBlank_truthy _ Hx).
Qed.

Lemma filter_nonBlank_all (l : list jsstring) :
  forallb nonBlank (filter nonBlank l) = true.
Proof.
  induction l as [|x l IH]; [reflexivity|].
  cbn [filter]. destruct (nonBlank x) eqn:E; [|exact IH].
  cbn [forallb]. now rewrite E.
Qed.

Lemma forallb_tail_of (q q' : list jsstring) :
  forallb nonBlank q = true ->
  (q = q' \/ exists x, q = x :: q') ->
  forallb nonBlank q' = true.
Proof.
  intros H [->|[x ->]]; [exact H|].
  cbn in H. now apply andb_true_iff in H.
Qed.

(** Everything but [speak] and the end of an utterance leaves the queue
    alone and starts no utterance. *)
Lemma recognition_step_queue (a : Action) (h : Hook) :
  match a with
  | CallSpeak _ _ | UtteranceEnd _ | UtteranceError _ => True
  | _ =>
      sentenceQueueRef (fst (step a h)) = sentenceQueueRef h
      /\ utterances (snd (step a h)) = []
  end.
Proof.
  destruct a; try exact I; cbn [step];
    destruct h as [st pe [[c i hd]|] q w];
    unfold startStandby, startListening, stop, stopCurrentRecognition,
      installed, standby_onresult, standby_onend, standby_onerror,
      listening_onresult, listening_onend, listening_onerror;
    crunch_hook.
Qed.

Lemma step_conserves (a : Action) (h : Hook) :
  forallb nonBlank (sentenceQueueRef h) = true ->
  utterances (snd (step a h)) ++ sentenceQueueRef (fst (step a h))
  = sentenceQueueRef h ++ fragmentsOf a
  /\ forallb nonBlank (sentenceQueueRef (fst (step a h))) = true
  /\ forallb nonBlank (utterances (snd (step a h))) = true.
Proof.
  intros Hq.
  assert (Hsplit :
    utterances (snd (step a h)) ++ sentenceQueueRef (fst (step a h))
    = sentenceQueueRef h ++ fragmentsOf a).
  { destruct a;
      try (match goal with
           | |- context [step ?a h] =>
               pose proof (recognition_step_queue a h) as R; cbv beta iota in R
           end;
           match type of R with
           | _ /\ _ => destruct R as [E1 E2]
           end;
           cbn [fragmentsOf]; rewrite E1, E2, app_nil_r; reflexivity).
    - cbn [step fragmentsOf]. unfold speak.
      rewrite processSentenceQueue_conserves; [now destruct h|].
      destruct h as [st pe rr q w]. cbn in *.
      now rewrite forallb_app, Hq, filter_nonBlank_all.
    - cbn [step fragmentsOf]. unfold utterance_onend.
      rewrite app_nil_r.
      destruct (0 <? length (sentenceQueueRef h)) eqn:E.
      + now apply processSentenceQueue_conserves.
      + destruct h as [st pe rr [|x q] w]; [reflexivity|discriminate].
    - cbn [step fragmentsOf]. unfold utterance_onerror.
      rewrite app_nil_r.
      pose proof (processSentenceQueue_conserves seen
                    (setSpeechState idle h)) as H.
      destruct (processSentenceQueue seen (setSpeechState idle h))
        as [h' es]. cbn in *.
      rewrite H; [now destruct h | now destruct h]. }
  assert (Hall : forallb nonBlank
                   (utterances (snd (step a h))
                      ++ sentenceQueueRef (fst (step a h))) = true).
  { rewrite Hsplit, forallb_app, Hq. cbn [andb].
    destruct a; try reflexivity. apply filter_nonBlank_all. }
  rewrite forallb_app in Hall. apply andb_true_iff in Hall.
  destruct Hall as [H1 H2]. auto.
Qed.

Lemma utterances_app (a b : list Effect) :
  utterances (a ++ b) = utterances a ++ utterances b.
Proof. apply flat_map_app. Qed.

(** X1.  Whatever is done to the hook, in whatever order and through
    whatever stale callbacks, the texts handed to the synthesizer so far,
    followed by the queue, are the queue at the start followed by the
    fragments of the [speak] calls, in order: no fragment is lost,
    repeated or overtaken.  All of them are non-blank, so the branch of
    [processSentenceQueue] for an empty head is never taken. *)
Theorem queue_is_conserved (acts : list Action) :
  forall h,
    forallb nonBlank (sentenceQueueRef h) = true ->
    utterances (snd (run acts h)) ++ sentenceQueueRef (fst (run acts h))
    = sentenceQueueRef h ++ enqueued acts
    /\ forallb nonBlank (sentenceQueueRef (fst (run acts h))) = true
    /\ forallb nonBlank (utterances (snd (run acts h))) = true.
Proof.
  induction acts as [|a acts IH]; intros h Hq.
  - cbn. now rewrite app_nil_r.
  - destruct (step_conserves a h Hq) as (S1 & S2 & S3).
    cbn [run enqueued flat_map]. fold (enqueued acts).
    destruct (step a h) as [h1 es1]. cbn [fst snd] in *.
    destruct (IH h1 S2) as (I1 & I2 & I3).
    destruct (run acts h1) as [h2 es2]. cbn [fst snd] in *.
    rewrite utterances_app, forallb_app, S3, I3, I2.
    repeat split.
    rewrite <- app_assoc, I1, app_assoc, S1. now rewrite <- app_assoc.
Qed.

Lemma queue_is_conserved_witness :
  let acts := [CallSpeak idle (lit "One. Two. Three.");
               CallSpeak speaking (lit "Four.");
               RecognitionEnd;
               UtteranceEnd idle] in
  utterances (snd (run acts (initial true)))
    ++ sentenceQueueRef (fst (run acts (initial true)))
  = [lit "One."; lit " Two."; lit " Three."; lit "Four."].
Proof.
  intros acts.
  destruct (queue_is_conserved acts (initial true) eq_refl) as (H & _ & _).
  exact H.
Defined.

(** ** Playback runs the queue empty *)

Lemma run_app (a b : list Action) :
  forall h,
    run (a ++ b) h
    = (fst (run b (fst (run a h))),
       snd (run a h) ++ snd (run b (fst (run a h)))).
Proof.
  induction a as [|x a IH]; intros h.
  - cbn. now destruct (run b h).
  - cbn [app run]. destruct (step x h) as [h1 es1].
    rewrite IH. destruct (run a h1) as [h2 es2]. cbn [fst snd].
    now rewrite app_assoc.
Qed.

Lemma repeat_snoc {A : Type} (x : A) (n : nat) :
  repeat x (S n) = repeat x n ++ [x].
Proof.
  induction n as [|n IH]; [reflexivity|].
  cbn [repeat app] in *. now rewrite <- IH.
Qed.

Lemma SpeechState_eqb_neq (a b : SpeechState) :
  a <> b -> SpeechState_eqb a b = false.
Proof. destruct a, b; intros H; try reflexivity; congruence. Qed.

Lemma utterance_onend_next (seen : SpeechState) (h : Hook)
  (x : jsstring) (q : list jsstring) :
  seen <> speaking ->
  sentenceQueueRef h = x :: q ->
  nonBlank x = true ->
  utterance_onend seen h
  = (setSentenceQueue q (setSpeechState speaking h), [Utter x seen]).
Proof.
  intros Hs Hq Hx. unfold utterance_onend, processSentenceQueue.
  rewrite Hq, (SpeechState_eqb_neq _ _ Hs). cbn.
  destruct h as [st pe rr q0 w]. cbn in *. subst q0.
  now rewrite (nonBlank_truthy _ Hx).
Qed.

Lemma drain_queue (seen : SpeechState) (q : list jsstring) :
  forall h,
    seen <> speaking ->
    forallb nonBlank q = true ->
    sentenceQueueRef h = q ->
    q <> [] ->
    run (repeat (UtteranceEnd seen) (length q)) h
    = (setSentenceQueue [] (setSpeechState speaking h),
       map (fun t => Utter t seen) q).
Proof.
  induction q as [|x q IH]; intros h Hs Hall Hq Hne; [congruence|].
  cbn in Hall. apply andb_true_iff in Hall. destruct Hall as [Hx Hall].
  cbn [length repeat run step map].
  rewrite (utterance_onend_next seen h x q Hs Hq Hx).
  destruct q as [|y q'].
  - cbn. now destruct h.
  - rewrite (IH (setSentenceQueue (y :: q') (setSpeechState speaking h))
               Hs Hall ltac:(now destruct h) ltac:(discriminate)).
    now destruct h.
Qed.

Lemma playback_drains_aux (seen : SpeechState) (h : Hook) :
  seen <> speaking ->
  forallb nonBlank (sentenceQueueRef h) = true ->
  run (repeat (UtteranceEnd seen) (S (length (sentenceQueueRef h)))) h
  = (setSentenceQueue [] (setSpeechState idle h),
     map (fun t => Utter t seen) (sentenceQueueRef h)).
Proof.
  intros Hs Hall. rewrite repeat_snoc, run_app.
  destruct (sentenceQueueRef h) as [|x q] eqn:Hq.
  - cbn. unfold utterance_onend. rewrite Hq. cbn.
    destruct h; cbn in *; now subst.
  - rewrite (drain_queue seen (x :: q) h Hs Hall Hq ltac:(discriminate)).
    cbn [fst snd run step]. unfold utterance_onend. cbn.
    rewrite app_nil_r. now destruct h.
Qed.

(** X2.  Through the handler that every utterance of the hook carries
    (its [processSentenceQueue] did not see [speaking]), the ends of the
    utterances play the queue from its head to its last fragment, each
    once and in order, and the end of the last one sets the state to
    [idle] with the queue empty. *)
Theorem playback_drains (seen : SpeechState) (h : Hook) :
  seen <> speaking ->
  forallb nonBlank (sentenceQueueRef h) = true ->
  run (repeat (UtteranceEnd seen) (S (length (sentenceQueueRef h)))) h
  = (setSentenceQueue [] (setSpeechState idle h),
     map (fun t => Utter t seen) (sentenceQueueRef h)).
Proof. exact (playback_drains_aux seen h). Qed.

Lemma playback_drains_witness :
  let h := mkHook speaking None None [lit " Two."; lit " Three."] false in
  run (repeat (UtteranceEnd idle) 3) h
  = (mkHook idle None None [] false,
     [Utter (lit " Two.") idle; Utter (lit " Three.") idle]).
Proof.
  intros h.
  exact (playback_drains idle h ltac:(discriminate) eq_refl).
Defined.

(** X3.  [speak] through a callback that saw [speaking] only appends to
    the queue: no utterance starts and the state stays.  So when a first
    [speak] has started playback and a second arrives during it, the
    utterances come out as the fragments of the first followed by those of
    the second, and the hook ends [idle] with the queue empty. *)
Theorem speak_during_playback (seen : SpeechState) (t1 t2 : jsstring)
  (h : Hook) :
  seen <> speaking ->
  sentenceQueueRef h = [] ->
  filter nonBlank (sentencesOf t1) <> [] ->
  let f1 := filter nonBlank (sentencesOf t1) in
  let f2 := filter nonBlank (sentencesOf t2) in
  let playing := fst (speak seen t1 h) in
  speechState playing = speaking
  /\ speak speaking t2 playing
     = (setSentenceQueue (sentenceQueueRef playing ++ f2) playing, [])
  /\ run ([CallSpeak seen t1; CallSpeak speaking t2]
            ++ repeat (UtteranceEnd seen) (length f1 + length f2)) h
     = (setSentenceQueue [] (setSpeechState idle h),
        map (fun t => Utter t seen) (f1 ++ f2)).
Proof.
  intros Hs Hq Hne. cbv zeta.
  assert (Hf1 : forallb nonBlank (filter nonBlank (sentencesOf t1)) = true)
    by apply filter_nonBlank_all.
  assert (Hf2 : forallb nonBlank (filter nonBlank (sentencesOf t2)) = true)
    by apply filter_nonBlank_all.
  set (f2 := filter nonBlank (sentencesOf t2)) in *.
  destruct (filter nonBlank (sentencesOf t1)) as [|x r] eqn:E1;
    [congruence|].
  cbn in Hf1. apply andb_true_iff in Hf1. destruct Hf1 as [Hx Hr].
  assert (Hplay : speak seen t1 h
                  = (setSentenceQueue r (setSpeechState speaking h),
                     [Utter x seen])).
  { unfold speak, enqueue, processSentenceQueue.
    rewrite Hq. cbn [app]. rewrite E1.
    rewrite (SpeechState_eqb_neq _ _ Hs).
    destruct h as [st pe rr q w]. cbn.
    now rewrite (nonBlank_truthy _ Hx). }
  rewrite Hplay. cbn [fst].
  split; [now destruct h|]. split; [reflexivity|].
  set (h2 := enqueue t2 (setSentenceQueue r (setSpeechState speaking h))).
  assert (Hq2 : sentenceQueueRef h2 = r ++ f2) by now destruct h.
  assert (Hrun2 : run [CallSpeak seen t1; CallSpeak speaking t2] h
                  = (h2, [Utter x seen])).
  { cbn [run step]. rewrite Hplay.
    replace (speak speaking t2
               (setSentenceQueue r (setSpeechState speaking h)))
      with (h2, @nil Effect) by reflexivity.
    reflexivity. }
  rewrite run_app, Hrun2. cbn [fst snd].
  replace (length (x :: r) + length f2)
    with (S (length (sentenceQueueRef h2)))
    by (rewrite Hq2, length_app; reflexivity).
  rewrite (playback_drains_aux seen h2 Hs
             ltac:(rewrite Hq2, forallb_app, Hr, Hf2; reflexivity)).
  cbn [fst snd]. rewrite Hq2. reflexivity.
Qed.

Lemma speak_during_playback_witness :
  run ([CallSpeak idle (lit "One. Two."); CallSpeak speaking (lit "Three.")]
         ++ repeat (UtteranceEnd idle) 3) (initial true)
  = (initial true,
     [Utter (lit "One.") idle; Utter (lit " Two.") idle;
      Utter (lit "Three.") idle]).
Proof.
  destruct (speak_during_playback idle (lit "One. Two.") (lit "Three.")
              (initial true) ltac:(discriminate) eq_refl
              ltac:(discriminate)) as (_ & _ & H).
  exact H.
Defined.

(** ** Sessions *)

(** X4.  A torn-down recognizer is deaf: after [stopCurrentRecognition]
    no handler is installed and a result, end or error event of the old
    session changes nothing and calls nothing.  [startStandby] with an
    empty trigger word is that tear-down and nothing more; and once
    [startListening] has gone through, a result event can only deliver a
    transcript, whatever session was running before. *)
Theorem torn_down_session_is_deaf (seen : Render) (h : Hook)
  (ev : SpeechRecognitionEvent) (error : jsstring) :
  let quiet := fst (stopCurrentRecognition h) in
  installed quiet = Detached
  /\ step (RecognitionResult ev) quiet = (quiet, [])
  /\ step RecognitionEnd quiet = (quiet, [])
  /\ step (RecognitionError error) quiet = (quiet, [])
  /\ startStandby (mkRender (seenState seen) None) [] h
     = stopCurrentRecognition h
  /\ snd (step (RecognitionResult ev)
               (fst (startListening (mkRender (seenState seen) None) h)))
     = match recognitionRef h with
       | Some _ =>
           if truthy_str (trim (firstResult ev))
           then [Transcript (trim (firstResult ev))] else []
       | None => []
       end.
Proof.
  destruct h as [st pe [[c i hd]|] q w]; cbn; repeat split;
    unfold listening_onresult; cbn;
    destruct (trim (firstResult ev)); reflexivity.
Qed.

(** ** The permission error *)

Definition isNotAllowed (a : Action) : bool :=
  match a with
  | RecognitionError error => str_eqb error (lit "not-allowed")
  | _ => false
  end.

Lemma step_permission_source (a : Action) (h : Hook) :
  permissionError (fst (step a h)) = permissionError h
  \/ (isNotAllowed a = true
      /\ permissionError (fst (step a h)) = Some permissionMessage).
Proof.
  destruct a; cbn [step].
  - left. unfold speak. rewrite processSentenceQueue_permission.
    now destruct h.
  - left. destruct h as [st pe [[c i hd]|] q w];
      unfold startStandby, stopCurrentRecognition; crunch_hook.
  - left. destruct h as [st pe [[c i hd]|] q w];
      unfold startListening, stopCurrentRecognition; crunch_hook.
  - left. destruct h as [st pe [[c i hd]|] q w]; reflexivity.
  - left. destruct h as [st pe [[c i hd]|] q w];
      cbn [installed recognitionRef]; [|reflexivity].
    cbn [handlers]. destruct hd; [reflexivity| |];
      unfold standby_onresult, listening_onresult; crunch_hook.
  - left. destruct h as [st pe [[c i hd]|] q w];
      cbn [installed recognitionRef]; [|reflexivity].
    cbn [handlers]. destruct hd; [reflexivity| |];
      unfold standby_onend, listening_onend; crunch_hook.
  - cbn [isNotAllowed].
    destruct (str_eqb error (lit "not-allowed")) eqn:E.
    + destruct h as [st pe [[c i hd]|] q w];
        cbn [installed recognitionRef]; [|now left].
      cbn [handlers]. destruct hd; [now left| |]; right;
        unfold standby_onerror, listening_onerror, stopCurrentRecognition;
        rewrite E; split; reflexivity.
    + left. destruct h as [st pe [[c i hd]|] q w];
        cbn [installed recognitionRef]; [|reflexivity].
      cbn [handlers]. destruct hd; [reflexivity| |];
        unfold standby_onerror, listening_onerror; rewrite E;
        crunch_hook.
  - left. unfold utterance_onend.
    destruct (0 <? length (sentenceQueueRef h)).
    + apply processSentenceQueue_permission.
    + now destruct h.
  - left. unfold utterance_onerror.
    pose proof (processSentenceQueue_permission seen (setSpeechState idle h))
      as H.
    destruct (processSentenceQueue seen (setSpeechState idle h)).
    cbn in *. rewrite H. now destruct h.
Qed.

(** X5.  Starting from a hook without permission error, the error cell
    only ever holds the one fixed message, and it holds it only if a
    'not-allowed' recognition error was among the events: no other error
    code, and no call, records a permission error. *)
Theorem permission_error_has_one_source (acts : list Action) :
  forall h,
    permissionError h = None ->
    match permissionError (fst (run acts h)) with
    | None => True
    | Some m => m = permissionMessage /\ existsb isNotAllowed acts = true
    end.
Proof.
  induction acts as [|a acts IH]; intros h Hh.
  - cbn. now rewrite Hh.
  - cbn [run existsb].
    pose proof (step_permission_source a h) as Hs.
    destruct (step a h) as [h1 es1]. cbn [fst] in Hs.
    destruct Hs as [Hs | [Ha Hs]].
    + rewrite Hh in Hs. specialize (IH h1 Hs).
      destruct (run acts h1) as [h2 es2]. cbn [fst] in *.
      destruct (permissionError h2); [|exact I].
      destruct IH as [-> ->]. now rewrite orb_true_r.
    + pose proof (run_permission acts h1 Hs) as Hr.
      destruct (run acts h1) as [h2 es2]. cbn [fst] in *.
      rewrite Hr, Ha. auto.
Qed.

Lemma permission_error_has_one_source_witness :
  permissionError
    (fst (run [CallStartStandby (mkRender idle None) (lit "hey assistant");
               RecognitionError (lit "no-speech");
               RecognitionError (lit "audio-capture");
               CallStartListening (mkRender idle None);
               RecognitionError (lit "network")]
              (initial true)))
  = None.
Proof.
  pose proof (permission_error_has_one_source
                [CallStartStandby (mkRender idle None) (lit "hey assistant");
                 RecognitionError (lit "no-speech");
                 RecognitionError (lit "audio-capture");
                 CallStartListening (mkRender idle None);
                 RecognitionError (lit "network")]
                (initial true) eq_refl) as H.
  destruct (permissionError _) as [m|]; [|reflexivity].
  destruct H as [_ H]. discriminate H.
Defined.

(** ** Transcripts *)

Definition transcriptOk (e : Effect) : bool :=
  match e with
  | Transcript t => truthy_str t && outerClean t
  | _ => true
  end.

Lemma step_transcripts (a : Action) (h : Hook) :
  forallb transcriptOk (snd (step a h)) = true.
Proof.
  destruct a; cbn [step].
  - unfold speak, processSentenceQueue. crunch_hook.
  - unfold startStandby, stopCurrentRecognition.
    destruct h as [st pe [[c i hd]|] q w]; crunch_hook.
  - unfold startListening, stopCurrentRecognition.
    destruct h as [st pe [[c i hd]|] q w]; crunch_hook.
  - unfold stop, stopCurrentRecognition.
    destruct h as [st pe [[c i hd]|] q w]; reflexivity.
  - destruct (installed h); [reflexivity| |].
    + unfold standby_onresult. crunch_hook.
    + unfold listening_onresult.
      destruct (truthy_str (trim (firstResult ev))) eqn:E; [|reflexivity].
      cbn. now rewrite E, trim_outerClean.
  - destruct (installed h); [reflexivity| |];
      unfold standby_onend, listening_onend; crunch_hook.
  - destruct (installed h); [reflexivity| |];
      unfold standby_onerror, listening_onerror, stopCurrentRecognition;
      destruct h as [st pe [[c i hd]|] q w]; crunch_hook.
  - unfold utterance_onend, processSentenceQueue. crunch_hook.
  - unfold utterance_onerror, processSentenceQueue.
    destruct h as [st pe rr q w]. cbn.
    destruct (SpeechState_eqb seen speaking || (length q =? 0));
      [reflexivity|].
    destruct q as [|x q]; [reflexivity|].
    now destruct (truthy_str x).
Qed.

Lemma run_transcripts (acts : list Action) :
  forall h, forallb transcriptOk (snd (run acts h)) = true.
Proof.
  induction acts as [|a acts IH]; intros h; [reflexivity|].
  cbn [run]. pose proof (step_transcripts a h) as Hs.
  destruct (step a h) as [h1 es1]. specialize (IH h1).
  destruct (run acts h1) as [h2 es2]. cbn [snd] in *.
  now rewrite forallb_app, Hs, IH.
Qed.

(** X6.  Every transcript the hook hands to [onTranscript], in any run,
    is a non-empty string without white space at either end: the
    listening handler trims the first result and drops it when nothing is
    left. *)
Theorem transcripts_are_trimmed (acts : list Action) (h : Hook) :
  forallb transcriptOk (snd (run acts h)) = true.
Proof. apply run_transcripts. Qed.

(** X7.  When the recognizer of a standby session ends, the session is
    started again exactly when no result has matched the trigger phrase
    so far and the [startStandby] that opened the session was called
    through a callback that already saw the state [standby]; the hook's
    state is not touched.  A session opened from any other state is
    therefore not restarted. *)
Theorem standby_restart_condition (seen : Render) (triggerWord : jsstring)
  (h : Hook) (evs : list SpeechRecognitionEvent) :
  truthy_opt (seenPermission seen) = false ->
  recognitionRef h <> None ->
  triggerWord <> [] ->
  let session := fst (startStandby seen triggerWord h) in
  let heard := fst (run (results evs) session) in
  step RecognitionEnd heard
  = (heard,
     if negb (existsb (resultMatches triggerWord) evs)
        && SpeechState_eqb (seenState seen) standby
     then [RecognitionStart] else []).
Proof.
  intros Hp Hr Ht session heard.
  destruct (startStandby_session seen triggerWord h Hp Hr Ht)
    as (Hi & Hw & _).
  destruct (standby_results_run triggerWord (seenState seen) evs
              session Hi) as (I1 & I2 & _).
  fold heard in I1, I2. fold session in Hw. rewrite Hw in I2.
  cbn [step]. rewrite I1. unfold standby_onend. rewrite I2. cbn [orb].
  now destruct (negb _ && _).
Qed.

Lemma standby_restart_condition_witness :
  let quiet := [mkResults (lit "so") []; mkResults (lit "what") []] in
  snd (step RecognitionEnd
         (fst (run (results quiet)
                 (fst (startStandby (mkRender idle None)
                         (lit "hey assistant") (initial true))))))
  = []
  /\ snd (step RecognitionEnd
            (fst (run (results quiet)
                    (fst (startStandby (mkRender standby None)
                            (lit "hey assistant") (initial true))))))
     = [RecognitionStart].
Proof.
  intros quiet. split.
  - now rewrite (standby_restart_condition (mkRender idle None)
                   (lit "hey assistant") (initial true) quiet eq_refl
                   ltac:(discriminate) ltac:(discriminate)).
  - now rewrite (standby_restart_condition (mkRender standby None)
                   (lit "hey assistant") (initial true) quiet eq_refl
                   ltac:(discriminate) ltac:(discriminate)).
Defined.

(** ** Playback errors *)

Definition utteranceSeenOk (e : Effect) : bool :=
  match e with
  | Utter _ seen => negb (SpeechState_eqb seen speaking)
  | _ => true
  end.

Lemma processSentenceQueue_seen (seen : SpeechState) (h : Hook) :
  forallb utteranceSeenOk (snd (processSentenceQueue seen h)) = true.
Proof.
  unfold processSentenceQueue.
  destruct (SpeechState_eqb seen speaking) eqn:E; [reflexivity|].
  cbn [orb]. destruct (length (sentenceQueueRef h) =? 0); [reflexivity|].
  destruct h as [st pe rr [|x q] w]; [reflexivity|]. cbn.
  destruct (truthy_str x); [|reflexivity]. cbn. now rewrite E.
Qed.

Lemma step_seen (a : Action) (h : Hook) :
  forallb utteranceSeenOk (snd (step a h)) = true.
Proof.
  destruct a; cbn [step].
  - apply processSentenceQueue_seen.
  - unfold startStandby, stopCurrentRecognition.
    destruct h as [st pe [[c i hd]|] q w]; crunch_hook.
  - unfold startListening, stopCurrentRecognition.
    destruct h as [st pe [[c i hd]|] q w]; crunch_hook.
  - unfold stop, stopCurrentRecognition.
    destruct h as [st pe [[c i hd]|] q w]; reflexivity.
  - destruct (installed h); [reflexivity| |];
      unfold standby_onresult, listening_onresult; crunch_hook.
  - destruct (installed h); [reflexivity| |];
      unfold standby_onend, listening_onend; crunch_hook.
  - destruct (installed h); [reflexivity| |];
      unfold standby_onerror, listening_onerror, stopCurrentRecognition;
      destruct h as [st pe [[c i hd]|] q w]; crunch_hook.
  - unfold utterance_onend.
    destruct (0 <? length (sentenceQueueRef h)); [|reflexivity].
    apply processSentenceQueue_seen.
  - unfold utterance_onerror.
    pose proof (processSentenceQueue_seen seen (setSpeechState idle h))
      as H.
    now destruct (processSentenceQueue seen (setSpeechState idle h)).
Qed.

Lemma run_seen (acts : list Action) :
  forall h, forallb utteranceSeenOk (snd (run acts h)) = true.
Proof.
  induction acts as [|a acts IH]; intros h; [reflexivity|].
  cbn [run]. pose proof (step_seen a h) as Hs.
  destruct (step a h) as [h1 es1]. specialize (IH h1).
  destruct (run acts h1) as [h2 es2]. cbn [snd] in *.
  now rewrite forallb_app, Hs, IH.
Qed.

(** X16.  Every utterance the hook starts, in any run, carries handlers
    whose [processSentenceQueue] did not see [speaking]; and through such
    handlers an error of the utterance does to the hook what its end
    does, with a log entry before: the next fragment is played, or the
    state goes to [idle] when none is left. *)
Theorem playback_error_advances (acts : list Action) (h0 : Hook)
  (seen : SpeechState) (h : Hook) :
  seen <> speaking ->
  forallb utteranceSeenOk (snd (run acts h0)) = true
  /\ utterance_onerror seen h
     = (fst (utterance_onend seen h),
        ConsoleError :: snd (utterance_onend seen h)).
Proof.
  intros Hs. split; [apply run_seen|].
  unfold utterance_onerror, utterance_onend, processSentenceQueue.
  rewrite (SpeechState_eqb_neq _ _ Hs).
  destruct h as [st pe rr [|x q] w]; [reflexivity|]. cbn.
  now destruct (truthy_str x).
Qed.

Lemma playback_error_advances_witness :
  let h := mkHook speaking None None [lit " Two."] false in
  utterance_onerror idle h
  = (mkHook speaking None None [] false,
     [ConsoleError; Utter (lit " Two.") idle]).
Proof.
  intros h.
  destruct (playback_error_advances [] h idle h ltac:(discriminate))
    as [_ H].
  exact H.
Defined.

End SpeechExtra.

(* ===================================================================== *)
(** * The inference gateway: more on extraction and streaming *)
(* ===================================================================== *)
Module GatewayExtra.
Import JS JSFacts TrimFacts Ollama ExtractFacts StreamFacts.

(** ** The extracted span *)

(** [span] sits in [text] between [pre] and [post], opens with a bracket
    that is the first of the text and closes with its partner, which is
    the last of the text. *)
Definition SpanIn (text span : jsstring) : Prop :=
  exists pre opening mid post,
    text = pre ++ span ++ post
    /\ span = opening :: mid ++ [closerOf opening]
    /\ isOpening opening = true
    /\ forallb notOpening pre = true
    /\ forallb (notCloser opening) post = true.

Lemma dropEndWhile_stop {A : Type} (p : A -> bool) (m : list A) (x : A) :
  p x = false -> dropEndWhile p (m ++ [x]) = m ++ [x].
Proof.
  intros H. unfold dropEndWhile. rewrite rev_app_distr. cbn.
  rewrite H. cbn. now rewrite rev_involutive.
Qed.

Lemma notCloser_closer (opening : ascii) :
  notCloser opening (closerOf opening) = false.
Proof. unfold notCloser. now rewrite chr_eqb_refl. Qed.

Lemma spec_extract_sound (text span : jsstring) :
  spec_extract text = Some span -> SpanIn text span.
Proof.
  unfold spec_extract. fold notOpening. intros H.
  pose proof (takeWhile_dropWhile notOpening text) as Hsplit.
  pose proof (takeWhile_forallb notOpening text) as Hpre.
  destruct (dropWhile notOpening text) as [|opening behind] eqn:E;
    [discriminate|].
  apply dropWhile_head in E. unfold notOpening in E.
  apply negb_false_iff in E.
  fold (notCloser opening) in H.
  destruct (dropEndWhile_split (notCloser opening) behind)
    as (post & Hb & Hpost).
  destruct (dropEndWhile_last (notCloser opening) behind)
    as [En | (mid & x & Ek & Hx)].
  - rewrite En in H. discriminate.
  - rewrite Ek in H, Hb.
    assert (x = closerOf opening) as ->.
    { unfold notCloser in Hx. apply negb_false_iff in Hx.
      now apply chr_eqb_eq in Hx. }
    destruct (mid ++ [closerOf opening]) as [|y ys] eqn:Em;
      [now destruct mid|].
    injection H as <-. rewrite <- Em in *.
    exists (takeWhile notOpening text), opening, mid, post.
    repeat split; try assumption.
    rewrite <- Hsplit at 1. rewrite Hb. cbn [app].
    now rewrite <- app_assoc.
Qed.

Lemma spec_extract_complete (text span : jsstring) :
  SpanIn text span -> spec_extract text = Some span.
Proof.
  intros (pre & opening & mid & post & -> & -> & Ho & Hpre & Hpost).
  unfold spec_extract. fold notOpening.
  rewrite (dropWhile_app_all _ _ _ Hpre). cbn [app dropWhile].
  unfold notOpening at 1. rewrite Ho. cbn [negb].
  fold (notCloser opening).
  rewrite (dropEndWhile_app_all _ _ _ Hpost).
  rewrite (dropEndWhile_stop _ _ _ (notCloser_closer opening)).
  now destruct mid.
Qed.

Lemma extractJson_spec (response : jsstring) :
  extractJson response = spec_extract response.
Proof. rewrite extractJson_trimmed. apply spec_extract_trim. Qed.

(** X8.  A span that [extractJson] returns is a piece of the response
    that opens with '{' or '[' and closes with the partner of that
    bracket; no opening bracket precedes it in the response and its
    closing bracket does not occur again behind it.  Extracting from the
    span gives the span back. *)
Theorem extracted_span_is_bracketed (response span : jsstring) :
  extractJson response = Some span ->
  SpanIn response span /\ extractJson span = Some span.
Proof.
  rewrite extractJson_spec. intros H.
  pose proof (spec_extract_sound _ _ H) as Hin. split; [exact Hin|].
  destruct Hin as (pre & opening & mid & post & _ & Hs & Ho & _ & _).
  rewrite extractJson_spec. apply spec_extract_complete.
  exists [], opening, mid, []. cbn [app]. rewrite app_nil_r.
  repeat split; assumption.
Qed.

Lemma extracted_span_is_bracketed_witness :
  SpanIn exampleResponse exampleSpan
  /\ extractJson exampleSpan = Some exampleSpan.
Proof.
  exact (extracted_span_is_bracketed exampleResponse exampleSpan eq_refl).
Defined.

(** X9.  Text around the JSON does no harm as long as it stays clear of
    the brackets: when a bracketed span is preceded by text without
    opening bracket and followed by text without its closing bracket,
    [extractJson] returns exactly the span.  Markdown fences are such
    text. *)
Theorem wrapping_is_stripped (pre mid post : jsstring) (opening : ascii) :
  isOpening opening = true ->
  forallb notOpening pre = true ->
  forallb (notCloser opening) post = true ->
  extractJson (pre ++ (opening :: mid ++ [closerOf opening]) ++ post)
  = Some (opening :: mid ++ [closerOf opening]).
Proof.
  intros Ho Hpre Hpost. rewrite extractJson_spec.
  apply spec_extract_complete.
  exists pre, opening, mid, post. repeat split; assumption.
Qed.

Lemma wrapping_is_stripped_witness :
  let fence := lit "```" in
  extractJson (fence ++ lit "json" ++ [LF] ++ lit "[1, {}, 2]" ++ [LF]
                     ++ fence)
  = Some (lit "[1, {}, 2]").
Proof.
  intros fence.
  exact (wrapping_is_stripped (fence ++ lit "json" ++ [LF])
           (lit "1, {}, 2") ([LF] ++ fence) "["%char
           eq_refl eq_refl eq_refl).
Defined.

(** ** Streaming *)

Section Stream.

Context {number : Type}.
Variable numberTruthy : number -> bool.
Variable parse : jsstring -> Error + JsValue number.

Definition okResponse (status : N) (statusText : jsstring)
  (text : Error + jsstring) (reads : list jsstring)
  (failure : option Error) : Error + Response :=
  inr (mkResponse true status statusText (Some (mkBody reads failure)) text).

(** X10.  How the network cuts the body into chunks makes no difference:
    two streams with the same bytes in all and the same ending give the
    same calls in the same order. *)
Theorem chunking_is_immaterial (status : N) (statusText : jsstring)
  (text : Error + jsstring) (reads1 reads2 : list jsstring)
  (failure : option Error) :
  concat reads1 = concat reads2 ->
  generateChatStream numberTruthy parse
    (okResponse status statusText text reads1 failure)
  = generateChatStream numberTruthy parse
      (okResponse status statusText text reads2 failure).
Proof.
  intros H. rewrite !generateChatStream_spec. unfold okResponse.
  cbn [streamRecords streamFailure ok body decoded Ollama.failure].
  now rewrite H.
Qed.

Definition isParse (a : Action number) : bool :=
  match a with
  | JsonParse _ => true
  | _ => false
  end.

Definition lineFeeds (s : jsstring) : nat := count_occ ascii_dec s LF.

Lemma records_count (s : jsstring) : length (records s) = lineFeeds s.
Proof.
  unfold records, lineFeeds.
  induction s as [|c s IH]; [reflexivity|].
  cbn [cut count_occ]. destruct (cut s) as [ls r]. cbn [fst] in IH.
  destruct (chr_eqb c LF) eqn:E.
  - apply chr_eqb_eq in E. subst c.
    destruct (ascii_dec LF LF); [|congruence]. cbn. now rewrite IH.
  - destruct (ascii_dec c LF) as [->|_];
      [now rewrite chr_eqb_refl in E|].
    destruct ls; cbn in *; exact IH.
Qed.

Lemma recordChunks_le (line : jsstring) :
  length (recordChunks numberTruthy parse line) <= 1.
Proof.
  unfold recordChunks.
  destruct (str_eqb (trim line) []); [cbn; lia|].
  destruct (parse line) as [e|v]; [cbn; lia|].
  destruct (truthy numberTruthy (messageContent v)); cbn; lia.
Qed.

Lemma parses_le (line : jsstring) :
  length (filter isParse (recordActions numberTruthy parse line)) <= 1.
Proof.
  unfold recordActions.
  destruct (str_eqb (trim line) []); [cbn; lia|].
  cbn [filter isParse length].
  destruct (parse line) as [e|v]; [cbn; lia|].
  destruct (isNullish v); [cbn; lia|].
  assert (H : filter isParse
                (map OnChunk (recordChunks numberTruthy parse line)) = []).
  { induction (recordChunks numberTruthy parse line) as [|c cs IH];
      [reflexivity|exact IH]. }
  rewrite H. cbn. lia.
Qed.

Lemma flat_map_length_le {A B : Type} (f : A -> list B) (l : list A) :
  (forall x, length (f x) <= 1) -> length (flat_map f l) <= length l.
Proof.
  intros H. induction l as [|x l IH]; [cbn; lia|].
  cbn [flat_map length]. rewrite length_app. specialize (H x). lia.
Qed.

Lemma filter_flat_map {A B : Type} (p : B -> bool) (f : A -> list B)
  (l : list A) :
  filter p (flat_map f l) = flat_map (fun x => filter p (f x)) l.
Proof.
  induction l as [|x l IH]; [reflexivity|].
  cbn [flat_map]. now rewrite filter_app, IH.
Qed.

(** X11.  A streaming call parses at most one record and delivers at
    most one chunk per line feed of the body: a body without line feed
    gives no chunk at all. *)
Theorem one_chunk_per_line_at_most (fetched : Error + Response) :
  let trace := fst (generateChatStream numberTruthy parse fetched) in
  let received :=
    match fetched with
    | inr r =>
        match ok r, body r with
        | true, Some b => concat (decoded b)
        | _, _ => []
        end
    | inl _ => []
    end in
  length (chunksIn trace) <= lineFeeds received
  /\ length (filter isParse trace) <= lineFeeds received.
Proof.
  intros trace received. subst trace.
  rewrite generateChatStream_spec. cbn [fst].
  assert (Hr : streamRecords fetched = records received).
  { subst received. destruct fetched as [e|[o st stt [b|] txt]];
      try reflexivity; now destruct o. }
  rewrite Hr, <- records_count. split.
  - rewrite !chunksIn_app, chunksIn_records.
    replace (chunksIn (failureActions (streamFailure fetched))) with
      (@nil (JsValue number))
      by (destruct (streamFailure fetched); reflexivity).
    cbn [chunksIn flat_map chunkOf app]. rewrite app_nil_r.
    apply flat_map_length_le, recordChunks_le.
  - rewrite !filter_app, filter_flat_map.
    replace (filter isParse (failureActions (streamFailure fetched))) with
      (@nil (Action number))
      by (destruct (streamFailure fetched); reflexivity).
    cbn [filter isParse app]. rewrite app_nil_r.
    apply flat_map_length_le, parses_le.
Qed.

End Stream.

Lemma chunking_is_immaterial_witness :
  let whole := recordOf "Hi" ++ [LF] in
  generateChatStream (fun _ => true) parseExample
    (okResponse 200 (lit "OK") (inr []) [whole] None)
  = generateChatStream (fun _ => true) parseExample
      (okResponse 200 (lit "OK") (inr [])
                  [firstn 9 whole; skipn 9 whole] None).
Proof.
  intros whole.
  exact (chunking_is_immaterial (fun _ => true) parseExample 200 (lit "OK")
           (inr []) [whole] [firstn 9 whole; skipn 9 whole] None eq_refl).
Defined.

End GatewayExtra.

(* ===================================================================== *)
(** * Single-shot requests and the settings provider *)
(* ===================================================================== *)
Module StrategyFacts.
Import JS JSFacts TrimFacts Ollama Strategies Settings.



Section Provider.

Context {number : Type}.

Lemma offers_first (first : OllamaModel) (rest : list OllamaModel) :
  offers (first :: rest) (name first) = true.
Proof. unfold offers. cbn. now rewrite str_eqb_refl. Qed.

Lemma offers_In (models : list OllamaModel) (selected : jsstring) :
  offers models selected = true <-> In selected (map name models).
Proof.
  unfold offers. rewrite existsb_exists, in_map_iff. split.
  - intros (m & Hm & E). apply str_eqb_eq in E. now exists m.
  - intros (m & E & Hm). exists m. split; [exact Hm|].
    now apply str_eqb_eq.
Qed.

(** X13.  After [refreshModels] has run to its end, called through a
    callback of the current render: loading is over; when the list of
    models arrived, it is the list on offer and there is no connection
    error; a selection whose name is among the names of the list, and
    any selection when the list is empty, is kept with all settings as
    they were; any other selection is replaced by the name of the first
    model of the list, with the other settings as they were; so unless
    the list is empty the selected model is one of the list.  When
    anything failed, also a body without [models], the list on offer is
    empty, the connection error is set and the settings are as they
    were.  Refreshing again with the same outcome changes nothing. *)
Theorem refresh_keeps_selection_on_offer
  (fetched : Error + Reply (option (list OllamaModel)))
  (p : Provider number) :
  let p' := refreshModels (selectedModel (settings p)) fetched p in
  isModelLoading p' = false
  /\ match getModels fetched with
     | inr (Some models) =>
         availableModels p' = models
         /\ connectionError p' = None
         /\ match models with
            | [] => settings p' = settings p
            | first :: _ =>
                In (selectedModel (settings p')) (map name models)
                /\ if in_dec (list_eq_dec ascii_dec)
                             (selectedModel (settings p)) (map name models)
                   then settings p' = settings p
                   else settings p'
                        = mkSettings (ollamaUrl (settings p)) (name first)
                                     (systemPrompt (settings p))
                                     (temperature (settings p))
                                     (triggerWord (settings p))
            end
     | _ =>
         availableModels p' = []
         /\ connectionError p' = Some connectionMessage
         /\ settings p' = settings p
     end
  /\ refreshModels (selectedModel (settings p')) fetched p' = p'.
Proof.
  intros p'. subst p'. unfold refreshModels.
  destruct (getModels fetched) as [e|[models|]];
    [repeat split; reflexivity | | repeat split; reflexivity].
  destruct models as [|first rest]; [repeat split; reflexivity|].
  destruct (offers (first :: rest) (selectedModel (settings p))) eqn:E;
    cbn [negb settings availableModels isModelLoading connectionError].
  - rewrite E. pose proof (proj1 (offers_In _ _) E) as Hin.
    repeat split; try reflexivity; try exact Hin.
    destruct (in_dec _ _ _) as [_|Hn]; [reflexivity|contradiction].
  - cbn [selectModel selectedModel]. rewrite offers_first. cbn [negb].
    repeat split; try reflexivity.
    + now left.
    + destruct (in_dec _ _ _) as [Hin|_]; [|reflexivity].
      apply offers_In in Hin. congruence.
Qed.

End Provider.

End StrategyFacts.

(* ===================================================================== *)
(** * The chat view: a turn from its text to its end *)
(* ===================================================================== *)
Module ChatExtra.
Import JS JSFacts TrimFacts Ollama StreamFacts Chat ChatFacts ChatControls.

Section Turn.

Context {number : Type}.
Variable numberTruthy : number -> bool.
Variable parse : jsstring -> Error + JsValue number.

(** X14.  When the streaming call of [handleUserMessage] meets no
    failure, the list of messages ends up as the list the function
    started from, the user's message and one assistant message whose
    content is the string chunks of the stream put together in arrival
    order; [speak] has received exactly those chunks, in that order: what
    is shown is what is spoken. *)
Theorem stream_fills_placeholder (fetched : Error + Response)
  (seenMessages : list ChatMessage) (userText : jsstring) (v : View) :
  streamFailure fetched = None ->
  let chunks :=
    stringChunks (fst (generateChatStream numberTruthy parse fetched)) in
  handleUserMessage numberTruthy parse fetched seenMessages userText v
  = Some (mkView
            (seenMessages
               ++ [mkMessage USER userText;
                   mkMessage ASSISTANT (concat chunks)])
            (spoken v ++ chunks)).
Proof.
  intros Hf chunks. unfold handleUserMessage, beginTurn.
  replace (seenMessages ++ [mkMessage USER userText]
                        ++ [mkMessage ASSISTANT []])
    with ((seenMessages ++ [mkMessage USER userText])
            ++ [mkMessage ASSISTANT []])
    by now rewrite <- app_assoc.
  rewrite deliver_chunks.
  - fold chunks. cbn [app]. now rewrite <- app_assoc.
  - rewrite generateChatStream_spec, Hf. cbn [fst failureActions app].
    rewrite errorsIn_app, errorsIn_records. reflexivity.
Qed.

End Turn.

Lemma stream_fills_placeholder_witness :
  let body := recordOf "Hi" ++ [LF] ++ [LF] ++ lit "oops" ++ [LF]
                       ++ recordOf " there" ++ [LF] in
  handleUserMessage (fun _ => true) parseExample
    (GatewayExtra.okResponse 200 (lit "OK") (inr [])
       [firstn 20 body; skipn 20 body] None)
    [] (lit "hello") (mkView [] [])
  = Some (mkView [mkMessage USER (lit "hello");
                  mkMessage ASSISTANT (lit "Hi there")]
                 [lit "Hi"; lit " there"]).
Proof.
  intros body.
  exact (stream_fills_placeholder (fun _ => true) parseExample
           (GatewayExtra.okResponse 200 (lit "OK") (inr [])
              [firstn 20 body; skipn 20 body] None)
           [] (lit "hello") (mkView [] []) eq_refl).
Defined.

Definition transcriptTaken (e : Speech.Effect) : Prop :=
  match e with
  | Speech.Transcript t => handleTranscript t = (responding, Some t)
  | _ => True
  end.

(** X15.  No blank text starts a turn.  Every transcript that the hook
    delivers, in any run, makes [handleTranscript] go to [responding]
    with that transcript, so its branch back to [standby] is never taken;
    and a submission of the text form that is not ignored happens outside
    the modes [listening] and [responding], goes to [responding], clears
    the input field and passes on the input without its outer white
    space, which is not empty. *)
Theorem turns_start_with_text (acts : list Speech.Action) (h : Speech.Hook)
  (mode : ChatMode) (inputText : jsstring) :
  Forall transcriptTaken (snd (Speech.run acts h))
  /\ match handleTextInputSubmit mode inputText with
     | Some s =>
         newMode s = responding
         /\ newInput s = []
         /\ userText s = trim inputText
         /\ truthy_str (userText s) = true
         /\ outerClean (userText s) = true
         /\ ChatMode_eqb mode listening = false
         /\ ChatMode_eqb mode responding = false
     | None =>
         truthy_str (trim inputText) = false
         \/ mode = listening \/ mode = responding
     end.
Proof.
  split.
  - pose proof (SpeechExtra.run_transcripts acts h) as H.
    rewrite forallb_forall in H. apply Forall_forall. intros e He.
    specialize (H e He). destruct e; try exact I.
    cbn in H. apply andb_true_iff in H. destruct H as [Ht _].
    unfold transcriptTaken, handleTranscript. now rewrite Ht.
  - unfold handleTextInputSubmit.
    destruct (truthy_str (trim inputText)) eqn:Et; cbn [negb orb];
      [|now left].
    destruct mode; cbn; auto using trim_outerClean;
      repeat split; auto using trim_outerClean.
Qed.

End ChatExtra.
